(** * tfsort: the HCL block and attribute sorter (internal/hclsort)

    A shallow embedding of [internal/hclsort/hcl_processor.go] and of the
    part of the [hclwrite] syntax tree it drives, followed by the properties
    of the sorters. *)

From Stdlib Require Import Strings.Ascii Strings.String.
From stdpp Require Import gmap strings list sorting.

(** ** hclsyntax: token types

    [hclsyntax.TokenType] is a Go [rune]; the constants below carry the
    code points the library assigns to them. *)
Module hclsyntax.
Definition TokenType : Type := Z.
Definition TokenOBrace : TokenType := 123%Z.   (* '{' *)
Definition TokenCBrace : TokenType := 125%Z.   (* '}' *)
Definition TokenOBrack : TokenType := 91%Z.    (* '[' *)
Definition TokenCBrack : TokenType := 93%Z.    (* ']' *)
Definition TokenEqual : TokenType := 61%Z.     (* '=' *)
Definition TokenComma : TokenType := 44%Z.     (* ',' *)
Definition TokenDot : TokenType := 46%Z.       (* '.' *)
Definition TokenNewline : TokenType := 10%Z.   (* '\n' *)
Definition TokenComment : TokenType := 67%Z.   (* 'C' *)
Definition TokenIdent : TokenType := 73%Z.     (* 'I' *)
Definition TokenNumberLit : TokenType := 78%Z. (* 'N' *)
Definition TokenQuotedLit : TokenType := 81%Z. (* 'Q' *)
Definition TokenOQuote : TokenType := 171%Z.   (* '«' *)
Definition TokenCQuote : TokenType := 187%Z.   (* '»' *)
End hclsyntax.

(** ** The Go effects the sorters rely on

    A computation may panic (a nil dereference, an index out of range) and
    draws the order of each [for ... range] over a map from the runtime:
    the state is the number of map iterations performed so far. *)
Definition Go (A : Type) : Type := nat → option (A * nat).

Global Instance Go_ret : MRet Go := λ A x k, Some (x, k).
Global Instance Go_bind : MBind Go := λ A B f m k,
  match m k with
  | Some (x, k') => f x k'
  | None => None
  end.

Definition panic {A} : Go A := λ _, None.

(** An operation that panics when it has no result: the dereference of
    [m[key]] for a missing key (nil), an index or a slice out of range. *)
Definition orPanic {A} (o : option A) : Go A :=
  match o with
  | Some x => mret x
  | None => panic
  end.

(** ** hclwrite: tokens and the syntax tree

    The sorters work on the syntax tree of the hclwrite package of the hcl
    library. The operations of the package they call are given here as the
    package implements them. *)
Module hclwrite.

Record Token : Type := MkToken {
  Type_ : hclsyntax.TokenType;
  Bytes : string;
  SpacesBefore : nat
}.

Abbreviation Tokens := (list Token).

(** An attribute owns the tokens of its whole line: lead comments, name,
    equals sign, expression, line comment and end of line.
    [Attribute_name] is the text of its name token. *)
Record Attribute : Type := MkAttribute {
  Attribute_name : string;
  Attribute_tokens : Tokens
}.

(** A body has an ordered list of children and an item set. The children
    are attributes, blocks and runs of unstructured tokens. The item set
    holds the attributes and the blocks that were put into the body as
    items: [Attributes()] reads it, [Blocks()] returns the blocks of the
    child list that are in it, and [Clear()] empties the child list only.
    Every block of a child list is an item (the parser and [AppendBlock]
    make it one), so of the item set only the attributes are kept here, by
    name (the names of the attributes of a parsed body are distinct). *)
Inductive Node : Type :=
| NodeAttribute (a : Attribute)
| NodeBlock (b : Block)
| NodeTokens (ts : Tokens)
with Block : Type :=
| MkBlock (type : string) (labels : list string) (body : Body)
with Body : Type :=
| MkBody (children : list Node) (items : gmap string Attribute).

Record File : Type := MkFile { File_Body : Body }.

Definition Body_children (b : Body) : list Node :=
  match b with MkBody children _ => children end.
Definition Body_items (b : Body) : gmap string Attribute :=
  match b with MkBody _ items => items end.

Definition Block_Type (b : Block) : string :=
  match b with MkBlock t _ _ => t end.
Definition Block_Labels (b : Block) : list string :=
  match b with MkBlock _ l _ => l end.
Definition Block_Body (b : Block) : Body :=
  match b with MkBlock _ _ body => body end.

(** The sorters mutate a block's body in place; here the block is rebuilt
    around the new body. *)
Definition Block_setBody (b : Block) (body : Body) : Block :=
  MkBlock (Block_Type b) (Block_Labels b) body.

(** The attributes among [children], by name. *)
Definition attributesOf (children : list Node) : gmap string Attribute :=
  foldl (λ ret n,
    match n with
    | NodeAttribute a => <[Attribute_name a := a]> ret
    | _ => ret
    end) ∅ children.

(** The body the parser builds for a sequence of children: every attribute
    among them is an item. *)
Definition parsedBody (children : list Node) : Body :=
  MkBody children (attributesOf children).

(** [Attribute.BuildTokens(nil)] *)
Definition Attribute_BuildTokens (a : Attribute) : Tokens :=
  Attribute_tokens a.

(** [Body.Attributes()]: a new map of the attributes in the item set of
    the body, with the attribute names as the keys. *)
Definition Body_Attributes (b : Body) : gmap string Attribute :=
  Body_items b.

(** [Body.Blocks()]: the blocks of the child list, in order. *)
Definition Body_Blocks (b : Body) : list Block :=
  omap (λ n, match n with NodeBlock blk => Some blk | _ => None end)
    (Body_children b).

(** [Body.Clear()]: empties the child list; the item set stays as it is. *)
Definition Body_Clear (b : Body) : Body := MkBody [] (Body_items b).

(** [Body.AppendUnstructuredTokens(ts)]: the tokens become the last child
    of the body; they are no item. *)
Definition Body_AppendUnstructuredTokens (b : Body) (ts : Tokens) : Body :=
  MkBody (Body_children b ++ [NodeTokens ts]) (Body_items b).

Definition newline : Token :=
  MkToken hclsyntax.TokenNewline (String "010"%char EmptyString) 0.

(** [Body.AppendNewline()] *)
Definition Body_AppendNewline (b : Body) : Body :=
  Body_AppendUnstructuredTokens b [newline].

(** [Body.AppendBlock(block)]: the block becomes the last child of the
    body (and an item). *)
Definition Body_AppendBlock (b : Body) (blk : Block) : Body :=
  MkBody (Body_children b ++ [NodeBlock blk]) (Body_items b).

End hclwrite.
Import hclwrite.

(** ** The token-trim step

    The loop that every sorter runs on the tokens of an attribute:
<<
    start, end := 0, len(tokens)
    for start < end && tokens[start].Type == hclsyntax.TokenNewline { start++ }
    for end > start && tokens[end-1].Type == hclsyntax.TokenNewline { end-- }
    ... tokens[start:end]
>>
*)
Definition isNewline (t : Token) : bool :=
  bool_decide (Type_ t = hclsyntax.TokenNewline).

(** First loop; [rem] is [end - start], so [start < end] reads [rem ≠ 0]. *)
Fixpoint scanStart (tokens : Tokens) (start rem : nat) : option nat :=
  match rem with
  | 0 => Some start
  | S rem' =>
      match tokens !! start with
      | None => None
      | Some t =>
          if isNewline t then scanStart tokens (S start) rem' else Some start
      end
  end.

(** Second loop, by recursion on [end]. *)
Fixpoint scanEnd (tokens : Tokens) (start end_ : nat) : option nat :=
  match end_ with
  | 0 => Some 0
  | S e =>
      if bool_decide (start < S e) then
        match tokens !! e with
        | None => None
        | Some t => if isNewline t then scanEnd tokens start e else Some (S e)
        end
      else Some (S e)
  end.

(** [tokens[start:end]]; Go panics unless [start <= end <= len(tokens)]. *)
Definition slice (tokens : Tokens) (start end_ : nat) : option Tokens :=
  if bool_decide (start ≤ end_ ∧ end_ ≤ length tokens)
  then Some (take (end_ - start) (drop start tokens))
  else None.

Definition trimTokens (tokens : Tokens) : option Tokens :=
  start ← scanStart tokens 0 (length tokens);
  end_ ← scanEnd tokens start (length tokens);
  slice tokens start end_.

(** ** sort.Strings and sort.Slice

    Go compares strings byte by byte, as [String.compare] does. The result
    of [sort.Strings] is the one increasing arrangement of its input, so any
    sorting function models it. *)
Definition str_le (a b : string) : Prop := String.leb a b = true.

Global Instance str_le_dec : RelDecision str_le.
Proof. intros a b. unfold str_le. apply _. Defined.

Definition sort_Strings (x : list string) : list string := merge_sort str_le x.

(** What [sort.Slice] asks of [less]. *)
Record StrictWeakOrder {A} (less : A → A → bool) : Prop := {
  less_asym a b : less a b = true → less b a = false;
  less_negtrans a b c : less a b = false → less b c = false → less a c = false
}.

(** What the Go runtime decides: the order in which the [k]-th map
    iteration of a run visits the keys, and how [sort.Slice], which is not
    stable, arranges elements that compare equal. *)
Class GoRuntime : Type := {
  range_order : nat → gmap string Attribute → list string;
  range_order_perm k m : range_order k m ≡ₚ (map_to_list m).*1;
  sort_Slice {A : Type} : (A → A → bool) → list A → list A;
  sort_Slice_perm {A} (less : A → A → bool) l : sort_Slice less l ≡ₚ l;
  sort_Slice_sorted {A} (less : A → A → bool) l :
    StrictWeakOrder less →
    StronglySorted (λ a b, less b a = false) (sort_Slice less l)
}.

(** The keys of a map in the order a [for name := range m] visits them. *)
Definition rangeKeys `{GoRuntime} (m : gmap string Attribute) : Go (list string) :=
  λ k, Some (range_order k m, S k).

(** ** internal/hclsort/hcl_processor.go *)
Section hclsort.
Context `{GoRuntime}.

(** The statements every attribute loop starts with:
<<
    attr := attrs[name]
    tokens := attr.BuildTokens(nil)
    ... (trim) ...
    body.AppendUnstructuredTokens(tokens[start:end])
>>
*)
Definition appendTrimmed (attrs : gmap string Attribute) (body : Body)
    (name : string) : Go Body :=
  attr ← orPanic (attrs !! name);
  let tokens := Attribute_BuildTokens attr in
  trimmed ← orPanic (trimTokens tokens);
  mret (Body_AppendUnstructuredTokens body trimmed).

(** [for i, name := range names { ...; if i+1 < len(names) { body.AppendNewline() } }],
    from index [i] on; [n] is [len(names)]. *)
Fixpoint appendAttrs (attrs : gmap string Attribute) (n i : nat)
    (names : list string) (body : Body) : Go Body :=
  match names with
  | [] => mret body
  | name :: rest =>
      body ← appendTrimmed attrs body name;
      let body := if bool_decide (i + 1 < n) then Body_AppendNewline body else body in
      appendAttrs attrs n (S i) rest body
  end.

(** sortLocalsBlock sorts the top-level assignments in a locals block. *)
Definition sortLocalsBlock (block : Block) : Go Block :=
  let body := Block_Body block in
  let attrs := Body_Attributes body in
  names ← rangeKeys attrs;
  let names := sort_Strings names in
  let body := Body_Clear body in
  let body := Body_AppendNewline body in
  body ← appendAttrs attrs (length names) 0 names body;
  let body := Body_AppendNewline body in
  mret (Block_setBody block body).

(** The body of the loop of sortRequiredProvidersInBlock, for a child [b]
    that passed the test on its type. *)
Definition sortRequiredProviders (b : Block) : Go Block :=
  let body := Block_Body b in
  let attrs := Body_Attributes body in
  providerNames ← rangeKeys attrs;
  let providerNames := sort_Strings providerNames in
  let body := Body_Clear body in
  let body := Body_AppendNewline body in
  body ← appendAttrs attrs (length providerNames) 0 providerNames body;
  let body := Body_AppendNewline body in
  mret (Block_setBody b body).

(** [for _, b := range block.Body().Blocks() { ... }]: each child block is
    updated where it stands; the other children are not visited. *)
Fixpoint sortRequiredProvidersInBody (children : list Node) : Go (list Node) :=
  match children with
  | [] => mret []
  | NodeBlock b :: rest =>
      b ← (if bool_decide (Block_Type b ≠ "required_providers")
           then mret b
           else sortRequiredProviders b);
      rest ← sortRequiredProvidersInBody rest;
      mret (NodeBlock b :: rest)
  | n :: rest =>
      rest ← sortRequiredProvidersInBody rest;
      mret (n :: rest)
  end.

(** sortRequiredProvidersInBlock sorts the entries in any
    required_providers block. *)
Definition sortRequiredProvidersInBlock (block : Block) : Go Block :=
  let body := Block_Body block in
  children ← sortRequiredProvidersInBody (Body_children body);
  mret (Block_setBody block (MkBody children (Body_items body))).

Definition metaArgCount : string := "count".
Definition metaArgForEach : string := "for_each".
Definition metaBlockLifecycle : string := "lifecycle".
Definition metaArgDependsOn : string := "depends_on".

(** The three variables the first loop of sortResourceParams fills. *)
Record Buckets : Type := MkBuckets {
  namesFirst : list string;
  hasDependsOn : bool;
  names : list string
}.

(** The [switch name] of that loop. *)
Definition bucket (st : Buckets) (name : string) : Buckets :=
  if bool_decide (name = metaArgCount ∨ name = metaArgForEach) then
    MkBuckets (namesFirst st ++ [name]) (hasDependsOn st) (names st)
  else if bool_decide (name = metaArgDependsOn) then
    MkBuckets (namesFirst st) true (names st)
  else
    MkBuckets (namesFirst st) (hasDependsOn st) (names st ++ [name]).

(** [for _, name := range namesFirst { ...; body.AppendNewline() }] *)
Fixpoint appendFirst (attrs : gmap string Attribute)
    (namesFirst : list string) (body : Body) : Go Body :=
  match namesFirst with
  | [] => mret body
  | name :: rest =>
      body ← appendTrimmed attrs body name;
      appendFirst attrs rest (Body_AppendNewline body)
  end.

(** [for idx, block := range blocks { body.AppendBlock(block); if idx+1 < len(blocks) { body.AppendNewline() } }] *)
Fixpoint appendBlocks (n idx : nat) (blocks : list Block) (body : Body) : Body :=
  match blocks with
  | [] => body
  | block :: rest =>
      let body := Body_AppendBlock body block in
      let body := if bool_decide (idx + 1 < n) then Body_AppendNewline body else body in
      appendBlocks n (S idx) rest body
  end.

(** sortResourceParams sorts the resource parameters for a resource/data
    block according to the Terraform Style Guide. *)
Definition sortResourceParams (block : Block) : Go Block :=
  let body := Block_Body block in
  let attrs := Body_Attributes body in
  let blocks := Body_Blocks body in
  keys ← rangeKeys attrs;
  let st := foldl bucket (MkBuckets [] false []) keys in
  let namesFirst := namesFirst st in
  let hasDependsOn := hasDependsOn st in
  let names := sort_Strings (names st) in
  (* Rebuild body *)
  let body := Body_Clear body in
  let body := Body_AppendNewline body in
  (* Add for_each or count attribute *)
  body ← appendFirst attrs namesFirst body;
  let body :=
    if bool_decide (0 < length namesFirst) then Body_AppendNewline body else body in
  (* Add attributes *)
  body ← appendAttrs attrs (length names) 0 names body;
  let body :=
    if bool_decide (0 < length blocks ∧ (0 < length names ∨ 0 < length namesFirst))
    then Body_AppendNewline (Body_AppendNewline body) else body in
  (* Add the blocks *)
  let body := appendBlocks (length blocks) 0 blocks body in
  (* Add depends_on attribute *)
  body ←
    (if hasDependsOn then
       let body :=
         if bool_decide (0 < length blocks ∨ 0 < length names ∨ 0 < length namesFirst)
         then Body_AppendNewline body else body in
       appendTrimmed attrs body "depends_on"
     else mret body);
  let body := Body_AppendNewline body in
  mret (Block_setBody block body).

(** Modelled from the spec: the struct [SortableBlock] is declared in a
    file of the package other than hcl_processor.go; it has the two fields
    the composite literal in ProcessAndSortBlocks sets, the first label as
    sort key and the block. *)
Record SortableBlock : Type := MkSortableBlock {
  Name : string;
  Block_ : Block
}.

(** First loop of ProcessAndSortBlocks: the [switch block.Type()]. *)
Definition sortBlockParams (block : Block) : Go Block :=
  if bool_decide (Block_Type block = "terraform") then
    sortRequiredProvidersInBlock block
  else if bool_decide (Block_Type block = "resource") then
    sortResourceParams block
  else if bool_decide (Block_Type block = "locals") then
    sortLocalsBlock block
  else mret block.

(** [for _, block := range file.Body().Blocks() { switch ... }]: every
    top-level block is updated where it stands. *)
Fixpoint sortBlocksInBody (children : list Node) : Go (list Node) :=
  match children with
  | [] => mret []
  | NodeBlock block :: rest =>
      block ← sortBlockParams block;
      rest ← sortBlocksInBody rest;
      mret (NodeBlock block :: rest)
  | n :: rest =>
      rest ← sortBlocksInBody rest;
      mret (n :: rest)
  end.

(** [allowedBlocks[blockType]]: false for a missing key. *)
Definition allowed (allowedBlocks : gmap string bool) (blockType : string) : bool :=
  default false (allowedBlocks !! blockType).

(** [for _, block := range originalBlocks { ... }], with the two slices it
    appends to. *)
Fixpoint partitionBlocks (allowedBlocks : gmap string bool)
    (originalBlocks : list Block)
    (sortableItems : list SortableBlock) (otherBlocks : list Block)
    : Go (list SortableBlock * list Block) :=
  match originalBlocks with
  | [] => mret (sortableItems, otherBlocks)
  | block :: rest =>
      let blockType := Block_Type block in
      if allowed allowedBlocks blockType
         && bool_decide (0 < length (Block_Labels block)) then
        name ← orPanic (Block_Labels block !! 0);
        partitionBlocks allowedBlocks rest
          (sortableItems ++ [MkSortableBlock name block]) otherBlocks
      else
        partitionBlocks allowedBlocks rest sortableItems (otherBlocks ++ [block])
  end.

(** [sortableItems[i].Name < sortableItems[j].Name] *)
Definition lessName (a b : SortableBlock) : bool := String.ltb (Name a) (Name b).

(** [for i, block := range otherBlocks { ... }]; [n] is [len(otherBlocks)]
    and [m] is [len(sortableItems)]. *)
Fixpoint appendOther (n m i : nat) (otherBlocks : list Block) (body : Body) : Body :=
  match otherBlocks with
  | [] => body
  | block :: rest =>
      let body := Body_AppendBlock body block in
      let body :=
        if bool_decide ((Z.of_nat i < Z.of_nat n - 1)%Z ∨ 0 < m)
        then Body_AppendNewline body else body in
      appendOther n m (S i) rest body
  end.

(** [for i, sb := range sortableItems { ... }]; [n] is [len(sortableItems)]. *)
Fixpoint appendSortable (n i : nat) (sortableItems : list SortableBlock)
    (body : Body) : Body :=
  match sortableItems with
  | [] => body
  | sb :: rest =>
      let body := Body_AppendBlock body (Block_ sb) in
      let body :=
        if bool_decide (Z.of_nat i < Z.of_nat n - 1)%Z
        then Body_AppendNewline body else body in
      appendSortable n (S i) rest body
  end.

(** ProcessAndSortBlocks extracts sortable blocks (variables, outputs,
    locals, terraform) and sorts them. *)
Definition ProcessAndSortBlocks (file : File)
    (allowedBlocks : gmap string bool) : Go File :=
  children ← sortBlocksInBody (Body_children (File_Body file));
  let body := MkBody children (Body_items (File_Body file)) in
  let originalBlocks := Body_Blocks body in
  '(sortableItems, otherBlocks) ← partitionBlocks allowedBlocks originalBlocks [] [];
  let sortableItems := sort_Slice lessName sortableItems in
  let body := Body_Clear body in
  let body :=
    appendOther (length otherBlocks) (length sortableItems) 0 otherBlocks body in
  let body := appendSortable (length sortableItems) 0 sortableItems body in
  mret (MkFile body).

End hclsort.

(** ** hcl: diagnostics and positions *)
Module hcl.
Inductive DiagnosticSeverity : Type := DiagInvalid | DiagError | DiagWarning.

Global Instance DiagnosticSeverity_eq_dec : EqDecision DiagnosticSeverity.
Proof. solve_decision. Defined.

Record Diagnostic : Type := MkDiagnostic {
  Severity : DiagnosticSeverity;
  Summary : string;
  Detail : string
}.

Abbreviation Diagnostics := (list Diagnostic).

(** [Diagnostics.HasErrors()]: true when some diagnostic is an error. *)
Fixpoint HasErrors (d : Diagnostics) : bool :=
  match d with
  | [] => false
  | diag :: rest =>
      if bool_decide (Severity diag = DiagError) then true else HasErrors rest
  end.

Record Pos : Type := MkPos { Line : Z; Column : Z; Byte : Z }.
End hcl.

(** The value [fmt.Errorf] builds for a format that ends in [%w]: the
    formatted text and the wrapped error. *)
Record error : Type := MkError {
  Error : string;
  Unwrap : hcl.Diagnostics
}.

Section adapters.
(** The parser, the text of a list of diagnostics, the serialisation of a
    file and the canonical formatter belong to the hcl library. *)
Variable ParseConfig :
  list Byte.byte → string → hcl.Pos → option File * hcl.Diagnostics.
Variable Diagnostics_Error : hcl.Diagnostics → string.
Variable File_Bytes : File → list Byte.byte.
Variable Format : list Byte.byte → list Byte.byte.

(** ParseHCLContent parses the HCL source byte slice using hclwrite. The
    result is Go's pair of a file pointer and an error, either of which
    may be nil. *)
Definition ParseHCLContent (src : list Byte.byte) (filename : string)
    : option File * option error :=
  let '(file, diags) := ParseConfig src filename (hcl.MkPos 1 1 0) in
  if hcl.HasErrors diags then
    (None,
     Some (MkError
       ("error parsing HCL content from '" +:+ filename +:+ "': "
          +:+ Diagnostics_Error diags)
       diags))
  else (file, None).

(** FormatHCLBytes formats the HCL file's content into a byte slice. *)
Definition FormatHCLBytes (file : File) : list Byte.byte :=
  Format (File_Bytes file).
End adapters.

(** ** Two runtimes

    [insertSorted] and [insertionSort] are the insertion sort Go's
    [sort.Slice] runs on short slices. *)
Fixpoint insertSorted {A} (less : A → A → bool) (x : A) (l : list A) : list A :=
  match l with
  | [] => [x]
  | y :: l' => if less x y then x :: y :: l' else y :: insertSorted less x l'
  end.

Definition insertionSort {A} (less : A → A → bool) (l : list A) : list A :=
  foldl (λ acc x, insertSorted less x acc) [] l.

(** Map iterations that visit the keys in increasing order, and map
    iterations that visit them in decreasing order. *)
Definition range_increasing (k : nat) (m : gmap string Attribute) : list string :=
  sort_Strings (map_to_list m).*1.

Definition range_decreasing (k : nat) (m : gmap string Attribute) : list string :=
  reverse (sort_Strings (map_to_list m).*1).

(** Map iterations that go up the first two times and down afterwards. *)
Definition range_switching (k : nat) (m : gmap string Attribute) : list string :=
  if bool_decide (k < 2) then range_increasing k m else range_decreasing k m.

(** * Vocabulary of the properties *)

(** ** Tokens and rebuilt bodies *)

(** Position [i] of [tokens] holds a newline token; it holds another token. *)
Definition newlineAt (tokens : Tokens) (i : nat) : Prop :=
  ∃ t, tokens !! i = Some t ∧ isNewline t = true.

Definition contentAt (tokens : Tokens) (i : nat) : Prop :=
  ∃ t, tokens !! i = Some t ∧ isNewline t = false.

(** The tokens the trim leaves, as a total function. *)
Definition trim (tokens : Tokens) : Tokens := default [] (trimTokens tokens).

(** The separator every sorter inserts: one newline token. *)
Abbreviation NL := (NodeTokens [newline]).

(** [l] with [sep] between consecutive elements. *)
Fixpoint sepBy {A} (sep : A) (l : list A) : list A :=
  match l with
  | [] => []
  | x :: l' =>
      match l' with
      | [] => [x]
      | _ :: _ => x :: sep :: sepBy sep l'
      end
  end.

(** [l] with [sep] after each element. *)
Definition endBy {A} (sep : A) (l : list A) : list A :=
  flat_map (λ x, [x; sep]) l.

(** The node that stands for the attribute [name] of [attrs] after a
    rebuild: its trimmed tokens, unstructured. *)
Definition relocated (attrs : gmap string Attribute) (name : string) : Node :=
  NodeTokens (trim (from_option Attribute_BuildTokens [] (attrs !! name))).

(** A block after a rebuild of its body: new children, the item set as it
    was. *)
Definition Block_setChildren (b : Block) (children : list Node) : Block :=
  Block_setBody b (MkBody children (Body_items (Block_Body b))).

(** A body with more children at its end. *)
Definition Body_append (body : Body) (nodes : list Node) : Body :=
  MkBody (Body_children body ++ nodes) (Body_items body).

(** The blocks among [children], in order: [Body_Blocks] of a body with
    these children. *)
Definition blocksOf (children : list Node) : list Block :=
  omap (λ n, match n with NodeBlock blk => Some blk | _ => None end) children.

(** The names the [switch] of sortResourceParams sends to [namesFirst], and
    those it sends to [names]. *)
Definition leading (name : string) : Prop :=
  name = metaArgCount ∨ name = metaArgForEach.

Definition ordinary (name : string) : Prop :=
  ¬ leading name ∧ name ≠ metaArgDependsOn.

Global Instance leading_dec name : Decision (leading name).
Proof. unfold leading. apply _. Defined.

Global Instance ordinary_dec name : Decision (ordinary name).
Proof. unfold ordinary. apply _. Defined.

(** The children sortResourceParams gives the body, from the three buckets
    and the nested blocks: a newline, then (a) [first], each followed by a newline,
    (b) [rest], (c) [blocks], (d) depends_on when [dep], and a newline; the
    conditional newlines are those of the source. *)
Definition resourceBody (attrs : gmap string Attribute)
    (first rest : list string) (blocks : list Block) (dep : bool) : list Node :=
  [NL]
  ++ endBy NL (relocated attrs <$> first)
  ++ (if bool_decide (first ≠ []) then [NL] else [])
  ++ sepBy NL (relocated attrs <$> rest)
  ++ (if bool_decide (blocks ≠ [] ∧ (rest ≠ [] ∨ first ≠ [])) then [NL; NL] else [])
  ++ sepBy NL (NodeBlock <$> blocks)
  ++ (if dep
      then (if bool_decide (blocks ≠ [] ∨ rest ≠ [] ∨ first ≠ []) then [NL] else [])
           ++ [relocated attrs metaArgDependsOn]
      else [])
  ++ [NL].

(** The names of the attributes of a body, in increasing order. *)
Definition sortedNames (body : Body) : list string :=
  sort_Strings (map_to_list (Body_Attributes body)).*1.

(** The children both sorters give the body: a newline, the attributes in
    increasing order of their names with one newline between two of them, a
    newline. *)
Definition sortedBody (body : Body) : list Node :=
  [NL] ++ sepBy NL (relocated (Body_Attributes body) <$> sortedNames body) ++ [NL].

(** What sortRequiredProvidersInBlock does to one child of the block. *)
Definition sortedProviders (n : Node) : Node :=
  match n with
  | NodeBlock b =>
      if bool_decide (Block_Type b = "required_providers")
      then NodeBlock (Block_setChildren b (sortedBody (Block_Body b)))
      else n
  | _ => n
  end.

(** ** The top level *)

(** A top-level block is sortable when [allowedBlocks] maps its type to
    true and it has a label; the key of the sort is its first label. *)
Definition sortable (allowedBlocks : gmap string bool) (b : Block) : Prop :=
  allowed allowedBlocks (Block_Type b) = true ∧ 0 < length (Block_Labels b).

Global Instance sortable_dec allowedBlocks b : Decision (sortable allowedBlocks b).
Proof. unfold sortable. apply _. Defined.

Definition firstLabel (b : Block) : string := default "" (head (Block_Labels b)).

(** The entry ProcessAndSortBlocks makes for a sortable block. *)
Definition toItem (b : Block) : SortableBlock := MkSortableBlock (firstLabel b) b.

(** Type and labels of a block: what no sorter changes. *)
Definition header (b : Block) : string * list string :=
  (Block_Type b, Block_Labels b).

(** The blocks ProcessAndSortBlocks emits after the other ones: the
    sortable blocks among [blocks], as [sort.Slice] arranges them. *)
Definition sortedBlocks `{GoRuntime} (allowedBlocks : gmap string bool)
    (blocks : list Block) : list Block :=
  Block_ <$> sort_Slice lessName (toItem <$> filter (sortable allowedBlocks) blocks).

(** [sortable] and [firstLabel] read from the header of a block. *)
Definition sortableHeader (allowedBlocks : gmap string bool)
    (h : string * list string) : Prop :=
  allowed allowedBlocks h.1 = true ∧ 0 < length h.2.

Global Instance sortableHeader_dec allowedBlocks h :
  Decision (sortableHeader allowedBlocks h).
Proof. unfold sortableHeader. apply _. Defined.

Definition headerLabel (h : string * list string) : string := default "" (head h.2).

(** What the top-level sorter emits for the blocks [blocks]. *)
Definition emitted `{GoRuntime} (allowedBlocks : gmap string bool)
    (blocks : list Block) : list Block :=
  filter (λ b, ¬ sortable allowedBlocks b) blocks ++ sortedBlocks allowedBlocks blocks.

(** ** Example documents *)

(** [name = value] and the end of its line. *)
Definition exampleAttribute (name value : string) : Attribute :=
  MkAttribute name
    [MkToken hclsyntax.TokenIdent name 0;
     MkToken hclsyntax.TokenEqual "=" 1;
     MkToken hclsyntax.TokenNumberLit value 1;
     newline].

(** Four attributes, in the order name, for_each, depends_on, count. *)
Definition exampleParams : list Node :=
  [NodeAttribute (exampleAttribute "name" "1");
   NodeAttribute (exampleAttribute "for_each" "2");
   NodeAttribute (exampleAttribute "depends_on" "3");
   NodeAttribute (exampleAttribute "count" "4")].

Definition exampleResource : Block :=
  MkBlock "resource" ["aws_instance"; "web"] (parsedBody exampleParams).

Definition exampleData : Block :=
  MkBlock "data" ["aws_instance"; "web"] (parsedBody exampleParams).

Definition exampleLocals : Block :=
  MkBlock "locals" []
    (parsedBody [NodeAttribute (exampleAttribute "b" "1");
                 NodeAttribute (exampleAttribute "c" "3");
                 NodeAttribute (exampleAttribute "a" "2")]).

(** Two variables, an output, a locals block and a resource. *)
Definition exampleFile : File :=
  MkFile
    (parsedBody [NodeBlock (MkBlock "variable" ["b"] (parsedBody []));
                 NodeBlock (MkBlock "variable" ["a"] (parsedBody []));
                 NodeBlock (MkBlock "output" ["z"] (parsedBody []));
                 NodeBlock exampleLocals;
                 NodeBlock exampleResource]).

Definition exampleAllowed : gmap string bool := {[ "variable" := true ]}.

(** The names of the attributes among the children of a body, in the
    order of the source. *)
Definition sourceNames (children : list Node) : list string :=
  omap (λ n, match n with NodeAttribute a => Some (Attribute_name a) | _ => None end)
    children.

(** ** Canonical results *)

(** The attributes of a body with their names, in the order of the source. *)
Definition attributePairs (children : list Node) : list (string * Attribute) :=
  omap (λ n, match n with
             | NodeAttribute a => Some (Attribute_name a, a)
             | _ => None
             end) children.

(** A body has at most one of count and for_each. *)
Definition oneLeading (body : Body) : Prop :=
  ¬ (is_Some (Body_Attributes body !! "count")
     ∧ is_Some (Body_Attributes body !! "for_each")).

(** The block sortResourceParams returns when the map iteration visits the
    names in increasing order. *)
Definition sortedParams (block : Block) : Block :=
  let body := Block_Body block in
  let keys := sortedNames body in
  Block_setChildren block
    (resourceBody (Body_Attributes body) (filter leading keys)
       (sort_Strings (filter ordinary keys)) (Body_Blocks body)
       (bool_decide (metaArgDependsOn ∈ keys))).

(** The block the [switch] of ProcessAndSortBlocks returns in that case. *)
Definition canonicalBlock (block : Block) : Block :=
  if bool_decide (Block_Type block = "terraform") then
    Block_setChildren block (sortedProviders <$> Body_children (Block_Body block))
  else if bool_decide (Block_Type block = "resource") then sortedParams block
  else if bool_decide (Block_Type block = "locals") then
    Block_setChildren block (sortedBody (Block_Body block))
  else block.

Definition canonicalNode (n : Node) : Node :=
  match n with
  | NodeBlock b => NodeBlock (canonicalBlock b)
  | _ => n
  end.

(** ** More example documents *)

(** A comment on a line of its own. *)
Definition exampleComment : Tokens :=
  [MkToken hclsyntax.TokenComment (String.append "# note" (String "010"%char EmptyString)) 0].

(** A locals block with a comment and a nested block between its
    attributes, and the same attributes in another order. *)
Definition exampleLocalsBody1 : list Node :=
  [NodeAttribute (exampleAttribute "b" "1");
   NodeTokens exampleComment;
   NodeAttribute (exampleAttribute "a" "2");
   NodeBlock (MkBlock "nested" [] (parsedBody []))].

Definition exampleLocalsBody2 : list Node :=
  [NodeBlock (MkBlock "nested" [] (parsedBody []));
   NodeAttribute (exampleAttribute "a" "2");
   NodeTokens exampleComment;
   NodeAttribute (exampleAttribute "b" "1")].

(** A resource with count only, a nested block and depends_on. *)
Definition exampleCounted : Block :=
  MkBlock "resource" ["aws_instance"; "db"]
    (parsedBody [NodeAttribute (exampleAttribute "name" "1");
                 NodeBlock (MkBlock "lifecycle" [] (parsedBody []));
                 NodeAttribute (exampleAttribute "depends_on" "3");
                 NodeBlock (MkBlock "tags" [] (parsedBody []));
                 NodeAttribute (exampleAttribute "count" "4")]).

(** A terraform block without a required_providers child. *)
Definition exampleTerraform : Block :=
  MkBlock "terraform" []
    (parsedBody
       [NodeAttribute (exampleAttribute "required_version" "1");
        NodeBlock (MkBlock "backend" ["s3"]
          (parsedBody [NodeAttribute (exampleAttribute "b" "1")]))]).

(** A file with blocks of all the kinds the sorters know, and a comment
    and an attribute at the top level. *)
Definition exampleMixed : File :=
  MkFile
    (parsedBody [NodeTokens exampleComment;
                 NodeBlock (MkBlock "variable" ["b"] (parsedBody []));
                 NodeAttribute (exampleAttribute "stray" "0");
                 NodeBlock exampleCounted;
                 NodeBlock (MkBlock "variable" ["a"] (parsedBody []));
                 NodeBlock exampleTerraform;
                 NodeBlock exampleLocals]).

(** A file with no terraform, resource or locals block. *)
Definition examplePlain : File :=
  MkFile
    (parsedBody
       [NodeBlock (MkBlock "variable" ["b"] (parsedBody []));
        NodeTokens [newline];
        NodeBlock (MkBlock "output" ["z"]
          (parsedBody [NodeAttribute (exampleAttribute "value" "1")]));
        NodeBlock (MkBlock "variable" ["a"] (parsedBody []))]).

(** A resource with a comment and two nested blocks, and no attribute. *)
Definition exampleBare : Block :=
  MkBlock "resource" ["aws_instance"; "bare"]
    (parsedBody [NodeTokens exampleComment;
                 NodeBlock (MkBlock "tags" [] (parsedBody []));
                 NodeBlock (MkBlock "lifecycle" [] (parsedBody []))]).

(** A terraform block with a required_providers child. *)
Definition exampleProviders : Block :=
  MkBlock "terraform" []
    (parsedBody
       [NodeBlock (MkBlock "required_providers" []
          (parsedBody [NodeAttribute (exampleAttribute "google" "1");
                       NodeTokens exampleComment;
                       NodeAttribute (exampleAttribute "aws" "2")]))]).

(** A file in which sortable blocks have the same first label, with a
    locals block, a resource and a terraform block. *)
Definition exampleRepeated : File :=
  MkFile
    (parsedBody
       [NodeBlock (MkBlock "variable" ["a"]
          (parsedBody [NodeAttribute (exampleAttribute "default" "1")]));
        NodeBlock exampleLocals;
        NodeBlock (MkBlock "output" ["a"]
          (parsedBody [NodeAttribute (exampleAttribute "value" "2")]));
        NodeBlock exampleCounted;
        NodeBlock (MkBlock "variable" ["a"] (parsedBody []));
        NodeBlock exampleProviders]).

Definition exampleKinds : gmap string bool :=
  {[ "variable" := true; "output" := true; "resource" := true ]}.

(** A parser that reports a warning and returns a file. *)
Definition exampleParser (src : list Byte.byte) (filename : string) (pos : hcl.Pos)
    : option File * hcl.Diagnostics :=
  (Some examplePlain, [hcl.MkDiagnostic hcl.DiagWarning "deprecated" "old syntax"]).

(** * Properties *)

(** ** The order on strings *)
Section string_order.

Lemma ascii_compare_refl a : Ascii.compare a a = Eq.
Proof. unfold Ascii.compare. apply N.compare_refl. Qed.

Lemma ascii_compare_lt_trans a b c :
  Ascii.compare a b = Lt → Ascii.compare b c = Lt → Ascii.compare a c = Lt.
Proof.
  unfold Ascii.compare. rewrite !N.compare_lt_iff. apply N.lt_trans.
Qed.

Lemma string_compare_refl s : String.compare s s = Eq.
Proof. induction s as [|a s IH]; simpl; [done|]. by rewrite ascii_compare_refl. Qed.

Lemma string_compare_lt_trans s1 s2 s3 :
  String.compare s1 s2 = Lt → String.compare s2 s3 = Lt →
  String.compare s1 s3 = Lt.
Proof.
  revert s2 s3.
  induction s1 as [|a s1 IH]; intros [|b s2] [|c s3]; simpl; try done.
  destruct (Ascii.compare a b) eqn:Hab; try done;
    destruct (Ascii.compare b c) eqn:Hbc; try done; intros H12 H23.
  - apply Ascii.compare_eq_iff in Hab, Hbc. subst.
    rewrite ascii_compare_refl. eauto.
  - apply Ascii.compare_eq_iff in Hab. subst. by rewrite Hbc.
  - apply Ascii.compare_eq_iff in Hbc. subst. by rewrite Hab.
  - by rewrite (ascii_compare_lt_trans a b c).
Qed.

Lemma str_le_alt a b : str_le a b ↔ String.compare a b = Lt ∨ a = b.
Proof.
  unfold str_le, String.leb. split.
  - destruct (String.compare a b) eqn:Hc; try done; intros _.
    + right. by apply String.compare_eq_iff.
    + by left.
  - intros [-> | ->]; [done|]. by rewrite string_compare_refl.
Qed.

Lemma ltb_false_le a b : String.ltb a b = false ↔ str_le b a.
Proof.
  unfold str_le, String.ltb, String.leb.
  rewrite (String.compare_antisym a b).
  by destruct (String.compare b a).
Qed.

Global Instance str_le_trans : Transitive str_le.
Proof.
  intros a b c. rewrite !str_le_alt. intros [Hab | ->] [Hbc | ->]; eauto.
  left. by eapply string_compare_lt_trans.
Qed.

Global Instance str_le_total : Total str_le.
Proof. intros a b. apply String.leb_total. Qed.

Global Instance str_le_antisymm : AntiSymm (=) str_le.
Proof. intros a b. apply String.leb_antisym. Qed.

Global Instance str_le_refl : Reflexive str_le.
Proof. intros a. apply str_le_alt. by right. Qed.

Lemma ltb_StrictWeakOrder {A} (key : A → string) :
  StrictWeakOrder (λ a b, String.ltb (key a) (key b)).
Proof.
  split.
  - intros a b Hlt. apply ltb_false_le, str_le_alt. left.
    unfold String.ltb in Hlt. by destruct (String.compare (key a) (key b)).
  - intros a b c. rewrite !ltb_false_le. intros ??. by etrans.
Qed.

End string_order.

(** ** sort.Strings *)
Lemma sort_Strings_perm l : sort_Strings l ≡ₚ l.
Proof. apply merge_sort_Permutation. Qed.

Lemma sort_Strings_sorted l : StronglySorted str_le (sort_Strings l).
Proof. apply (StronglySorted_merge_sort str_le). Qed.

(** Whatever order a map iteration yields, sorting gives the same list. *)
Lemma sort_Strings_unique l1 l2 : l1 ≡ₚ l2 → sort_Strings l1 = sort_Strings l2.
Proof.
  intros Hp. apply (StronglySorted_unique str_le); auto using sort_Strings_sorted.
  by rewrite !sort_Strings_perm.
Qed.

(** ** The token-trim step *)
Section trim.
Implicit Types (tokens : Tokens) (t : Token).

Lemma scanStart_spec tokens start rem :
  start + rem ≤ length tokens →
  ∃ s, scanStart tokens start rem = Some s ∧ start ≤ s ≤ start + rem ∧
       (∀ i, start ≤ i < s → newlineAt tokens i) ∧
       (s < start + rem → contentAt tokens s).
Proof.
  revert start. induction rem as [|rem IH]; intros start Hlen; simpl.
  - exists start. repeat split; lia.
  - destruct (tokens !! start) as [t|] eqn:Ht;
      [|apply lookup_ge_None in Ht; lia].
    destruct (isNewline t) eqn:Hnl.
    + destruct (IH (S start)) as (s & Hs & Hbounds & Hlead & Hstop); [lia|].
      exists s. split; [done|]. split; [lia|]. split.
      * intros i Hi. destruct (decide (i = start)) as [->|]; [by exists t|].
        apply Hlead. lia.
      * intros ?. apply Hstop. lia.
    + exists start. split; [done|]. split; [lia|]. split; [lia|].
      intros _. by exists t.
Qed.

Lemma scanEnd_spec tokens start end_ :
  start ≤ end_ ≤ length tokens →
  ∃ e, scanEnd tokens start end_ = Some e ∧ start ≤ e ≤ end_ ∧
       (∀ i, e ≤ i < end_ → newlineAt tokens i) ∧
       (start < e → contentAt tokens (e - 1)).
Proof.
  induction end_ as [|e IH]; intros Hlen; simpl.
  - exists 0. repeat split; lia.
  - case_bool_decide as Hlt.
    + destruct (tokens !! e) as [t|] eqn:Ht;
        [|apply lookup_ge_None in Ht; lia].
      destruct (isNewline t) eqn:Hnl.
      * destruct IH as (e' & He' & Hbounds & Htrail & Hstop); [lia|].
        exists e'. split; [done|]. split; [lia|]. split; [|done].
        intros i Hi. destruct (decide (i = e)) as [->|]; [by exists t|].
        apply Htrail. lia.
      * exists (S e). split; [done|]. split; [lia|]. split; [lia|].
        intros _. exists t. by replace (S e - 1) with e by lia.
    + exists (S e). repeat split; lia.
Qed.

(** The trim never panics, and its result is the middle of a split of the
    tokens into a run of newlines, a part that neither starts nor ends with
    a newline, and a run of newlines. *)
Lemma trimTokens_split tokens :
  ∃ lead mid trail,
    trimTokens tokens = Some mid ∧
    tokens = lead ++ mid ++ trail ∧
    Forall (λ t, isNewline t = true) lead ∧
    Forall (λ t, isNewline t = true) trail ∧
    (∀ t, head mid = Some t → isNewline t = false) ∧
    (∀ t, last mid = Some t → isNewline t = false).
Proof.
  destruct (scanStart_spec tokens 0 (length tokens)) as (s & Hs & Hsb & Hlead & Hsstop); [lia|].
  destruct (scanEnd_spec tokens s (length tokens)) as (e & He & Heb & Htrail & Hestop); [lia|].
  exists (take s tokens), (take (e - s) (drop s tokens)), (drop e tokens).
  split; [|split; [|split; [|split; [|split]]]].
  - unfold trimTokens. rewrite Hs. simpl. rewrite He. simpl.
    unfold slice. rewrite bool_decide_eq_true_2; [done|lia].
  - rewrite <- (take_drop s tokens) at 1. f_equal.
    rewrite <- (take_drop (e - s) (drop s tokens)) at 1. f_equal.
    rewrite drop_drop. f_equal. lia.
  - apply Forall_lookup. intros i t Hi.
    pose proof (lookup_lt_Some _ _ _ Hi) as Hlt. rewrite length_take in Hlt.
    rewrite lookup_take_lt in Hi by lia.
    destruct (Hlead i) as (t' & Ht' & Hnl); [lia|]. congruence.
  - apply Forall_lookup. intros i t Hi. rewrite lookup_drop in Hi.
    pose proof (lookup_lt_Some _ _ _ Hi) as Hlt.
    destruct (Htrail (e + i)) as (t' & Ht' & Hnl); [lia|]. congruence.
  - intros t Ht. rewrite head_lookup in Ht.
    pose proof (lookup_lt_Some _ _ _ Ht) as Hlt.
    rewrite length_take, length_drop in Hlt.
    rewrite lookup_take_lt, lookup_drop, Nat.add_0_r in Ht by lia.
    destruct Hsstop as (t' & Ht' & Hnl); [lia|]. congruence.
  - intros t Ht. rewrite last_lookup in Ht.
    pose proof (lookup_lt_Some _ _ _ Ht) as Hlt.
    rewrite length_take, length_drop in Hlt, Ht.
    rewrite lookup_take_lt, lookup_drop in Ht by lia.
    destruct Hestop as (t' & Ht' & Hnl); [lia|].
    replace (s + _) with (e - 1) in Ht by lia.
    congruence.
Qed.

End trim.

Lemma trimTokens_trim tokens : trimTokens tokens = Some (trim tokens).
Proof.
  unfold trim. destruct (trimTokens_split tokens) as (? & mid & ? & -> & _). done.
Qed.

(** ** Insertion sort is a [sort.Slice] *)
Section insertion_sort.
Context {A : Type} (less : A → A → bool).

Lemma insertSorted_perm x l : insertSorted less x l ≡ₚ x :: l.
Proof.
  induction l as [|y l IH]; simpl; [done|].
  destruct (less x y); [done|]. rewrite IH. apply perm_swap.
Qed.

Lemma insertionSort_perm l : insertionSort less l ≡ₚ l.
Proof.
  unfold insertionSort. rewrite <- (app_nil_l l) at 2.
  generalize (@nil A). induction l as [|x l IH]; intros acc; simpl.
  - by rewrite app_nil_r.
  - rewrite IH, insertSorted_perm. simpl. apply Permutation_middle.
Qed.

Lemma insertSorted_sorted x l :
  StrictWeakOrder less →
  StronglySorted (λ a b, less b a = false) l →
  StronglySorted (λ a b, less b a = false) (insertSorted less x l).
Proof.
  intros [Hasym Hneg]. induction 1 as [|y l Hl IH Hy]; simpl.
  - repeat constructor.
  - destruct (less x y) eqn:Hxy.
    + constructor; [by constructor|]. constructor; [by apply Hasym|].
      eapply Forall_impl; [exact Hy|]. intros z Hz. simpl in Hz.
      apply (Hneg z y x); [done|by apply Hasym].
    + constructor; [done|].
      rewrite insertSorted_perm. by constructor.
Qed.

Lemma insertionSort_sorted l :
  StrictWeakOrder less →
  StronglySorted (λ a b, less b a = false) (insertionSort less l).
Proof.
  intros Hless. unfold insertionSort.
  assert (StronglySorted (λ a b, less b a = false) (@nil A)) as Hacc by constructor.
  revert Hacc. generalize (@nil A).
  induction l as [|x l IH]; intros acc Hacc; simpl; [done|].
  by apply IH, insertSorted_sorted.
Qed.

End insertion_sort.

Lemma range_increasing_perm k m : range_increasing k m ≡ₚ (map_to_list m).*1.
Proof. apply sort_Strings_perm. Qed.

Lemma range_decreasing_perm k m : range_decreasing k m ≡ₚ (map_to_list m).*1.
Proof. unfold range_decreasing. by rewrite reverse_Permutation, sort_Strings_perm. Qed.

Lemma range_switching_perm k m : range_switching k m ≡ₚ (map_to_list m).*1.
Proof.
  unfold range_switching. case_bool_decide;
    [apply range_increasing_perm|apply range_decreasing_perm].
Qed.

(** A runtime whose map iterations go up, one whose map iterations go
    down, and one that changes its mind between two runs; all three sort
    slices by insertion. *)
Definition runtime_increasing : GoRuntime := {|
  range_order := range_increasing;
  range_order_perm := range_increasing_perm;
  sort_Slice := @insertionSort;
  sort_Slice_perm := @insertionSort_perm;
  sort_Slice_sorted := @insertionSort_sorted
|}.

Definition runtime_decreasing : GoRuntime := {|
  range_order := range_decreasing;
  range_order_perm := range_decreasing_perm;
  sort_Slice := @insertionSort;
  sort_Slice_perm := @insertionSort_perm;
  sort_Slice_sorted := @insertionSort_sorted
|}.

Definition runtime_switching : GoRuntime := {|
  range_order := range_switching;
  range_order_perm := range_switching_perm;
  sort_Slice := @insertionSort;
  sort_Slice_perm := @insertionSort_perm;
  sort_Slice_sorted := @insertionSort_sorted
|}.

(** ** Running a computation *)
Lemma Go_bind_run {A B} (m : Go A) (f : A → Go B) k x k' :
  m k = Some (x, k') → (m ≫= f) k = f x k'.
Proof. intros Hm. unfold mbind, Go_bind. by rewrite Hm. Qed.

Lemma Go_bind_inv {A B} (m : Go A) (f : A → Go B) k y k'' :
  (m ≫= f) k = Some (y, k'') →
  ∃ x k', m k = Some (x, k') ∧ f x k' = Some (y, k'').
Proof.
  unfold mbind, Go_bind. destruct (m k) as [[x k']|]; [|done]. eauto.
Qed.

(** ** What the emitting loops append *)

Lemma sepBy_cons_cons {A} (sep x y : A) l :
  sepBy sep (x :: y :: l) = x :: sep :: sepBy sep (y :: l).
Proof. done. Qed.

Lemma sepBy_app {A} (sep : A) l1 l2 :
  l2 ≠ [] → sepBy sep (l1 ++ l2) = endBy sep l1 ++ sepBy sep l2.
Proof.
  intros Hl2. induction l1 as [|x l1 IH]; [done|].
  change ((x :: l1) ++ l2) with (x :: (l1 ++ l2)).
  destruct (l1 ++ l2) as [|y l] eqn:Happ.
  - apply app_eq_nil in Happ as [_ ?]. done.
  - rewrite sepBy_cons_cons, IH. done.
Qed.

Lemma sepBy_elem_of {A} (sep : A) l x : x ∈ l → x ∈ sepBy sep l.
Proof.
  induction l as [|y [|z l] IH]; [done|done|].
  rewrite sepBy_cons_cons. rewrite (elem_of_cons (z :: l)).
  intros [->|Hx]; [left|]. do 2 right. by apply IH.
Qed.

Lemma sepBy_elem_of_inv {A} (sep : A) l x : x ∈ sepBy sep l → x = sep ∨ x ∈ l.
Proof.
  induction l as [|y [|z l] IH]; [by right|by right|].
  rewrite sepBy_cons_cons. rewrite !elem_of_cons.
  intros [->|[->|Hx]]; [right; by left|by left|].
  destruct (IH Hx) as [?|Hin]; [by left|]. right. right. by apply elem_of_cons.
Qed.

Lemma sepBy_not_nil {A} (sep : A) l : l ≠ [] → sepBy sep l ≠ [].
Proof. by destruct l as [|? [|? ?]]. Qed.

Lemma endBy_not_nil {A} (sep : A) l : l ≠ [] → endBy sep l ≠ [].
Proof. by destruct l. Qed.

Lemma fmap_not_nil {A B} (f : A → B) l : l ≠ [] → f <$> l ≠ [].
Proof. by destruct l. Qed.

Lemma Body_append_nil body : Body_append body [] = body.
Proof. destruct body. unfold Body_append. simpl. by rewrite app_nil_r. Qed.

Lemma Body_append_app body l1 l2 :
  Body_append (Body_append body l1) l2 = Body_append body (l1 ++ l2).
Proof. unfold Body_append. simpl. by rewrite app_assoc. Qed.

Lemma Body_append_Clear body l :
  Body_append (Body_Clear body) l = MkBody l (Body_items body).
Proof. done. Qed.

Lemma Body_AppendNewline_append body : Body_AppendNewline body = Body_append body [NL].
Proof. done. Qed.

Lemma Body_AppendUnstructuredTokens_append body ts :
  Body_AppendUnstructuredTokens body ts = Body_append body [NodeTokens ts].
Proof. done. Qed.

Lemma Body_AppendBlock_append body b :
  Body_AppendBlock body b = Body_append body [NodeBlock b].
Proof. done. Qed.

(** Brings a chain of appends to one [Body_append]. *)
Ltac appended :=
  rewrite ?Body_AppendNewline_append, ?Body_AppendUnstructuredTokens_append,
    ?Body_AppendBlock_append, ?Body_append_app, ?Body_append_nil, <- ?app_assoc,
    ?app_nil_r.

Section loops.
Context `{GoRuntime}.
Implicit Types (attrs : gmap string Attribute) (body : Body).

Lemma appendTrimmed_run attrs body name k :
  is_Some (attrs !! name) →
  appendTrimmed attrs body name k
  = Some (Body_append body [relocated attrs name], k).
Proof.
  intros [a Ha]. unfold appendTrimmed, relocated. rewrite Ha. simpl.
  unfold mbind, Go_bind. simpl. by rewrite trimTokens_trim.
Qed.

Lemma appendAttrs_run attrs names : ∀ n i body k,
  Forall (λ name, is_Some (attrs !! name)) names →
  n = i + length names →
  appendAttrs attrs n i names body k
  = Some (Body_append body (sepBy NL (relocated attrs <$> names)), k).
Proof.
  induction names as [|name names IH]; intros n i body k Hin Hn; simpl.
  - by rewrite Body_append_nil.
  - apply Forall_cons in Hin as [Hname Hin].
    erewrite Go_bind_run by by apply appendTrimmed_run.
    rewrite (IH n (S i)) by (done || simpl in Hn; lia).
    destruct names as [|name' names]; simpl in *.
    + rewrite bool_decide_eq_false_2 by lia. by appended.
    + rewrite bool_decide_eq_true_2 by lia. by appended.
Qed.

Lemma appendFirst_run attrs names : ∀ body k,
  Forall (λ name, is_Some (attrs !! name)) names →
  appendFirst attrs names body k
  = Some (Body_append body (endBy NL (relocated attrs <$> names)), k).
Proof.
  induction names as [|name names IH]; intros body k Hin; simpl.
  - by rewrite Body_append_nil.
  - apply Forall_cons in Hin as [Hname Hin].
    erewrite Go_bind_run by by apply appendTrimmed_run.
    rewrite IH by done. by appended.
Qed.

Lemma appendBlocks_run blocks : ∀ n idx body,
  n = idx + length blocks →
  appendBlocks n idx blocks body
  = Body_append body (sepBy NL (NodeBlock <$> blocks)).
Proof.
  induction blocks as [|b blocks IH]; intros n idx body Hn; simpl.
  - by rewrite Body_append_nil.
  - rewrite (IH n (S idx)) by (simpl in Hn; lia).
    destruct blocks as [|b' blocks]; simpl in *.
    + rewrite bool_decide_eq_false_2 by lia. by appended.
    + rewrite bool_decide_eq_true_2 by lia. by appended.
Qed.

End loops.

(** ** The resource parameter sorter *)

Lemma length_pos_iff {A} (l : list A) : 0 < length l ↔ l ≠ [].
Proof. destruct l; simpl; split; (done || lia). Qed.

Lemma leading_not_depends_on name : leading name → name ≠ metaArgDependsOn.
Proof. by intros [-> | ->]. Qed.

Lemma depends_on_cons name keys :
  name ≠ metaArgDependsOn →
  bool_decide (metaArgDependsOn ∈ name :: keys)
  = bool_decide (metaArgDependsOn ∈ keys).
Proof.
  intros Hne. apply bool_decide_ext. rewrite elem_of_cons.
  split; [intros [?|?]; congruence|auto].
Qed.

Lemma foldl_bucket keys : ∀ st,
  foldl bucket st keys
  = MkBuckets (namesFirst st ++ filter leading keys)
              (hasDependsOn st || bool_decide (metaArgDependsOn ∈ keys))
              (names st ++ filter ordinary keys).
Proof.
  induction keys as [|name keys IH]; intros [f d n]; cbn [foldl].
  - rewrite !filter_nil, !app_nil_r. simpl. by rewrite orb_false_r.
  - rewrite IH. unfold bucket. rewrite !filter_cons.
    destruct (decide (leading name)) as [Hl|Hl].
    + rewrite (bool_decide_eq_true_2 _ Hl). cbn [namesFirst hasDependsOn names].
      rewrite decide_False by (unfold ordinary; tauto).
      rewrite depends_on_cons by by apply leading_not_depends_on.
      by rewrite <- app_assoc.
    + rewrite (bool_decide_eq_false_2 _ Hl).
      destruct (decide (name = metaArgDependsOn)) as [Hd|Hd].
      * rewrite (bool_decide_eq_true_2 _ Hd). cbn [namesFirst hasDependsOn names].
        rewrite decide_False by (unfold ordinary; tauto).
        rewrite (bool_decide_eq_true_2 (_ ∈ name :: _)) by (subst; left).
        by rewrite orb_true_r.
      * rewrite (bool_decide_eq_false_2 _ Hd). cbn [namesFirst hasDependsOn names].
        rewrite decide_True by done.
        rewrite depends_on_cons by done.
        by rewrite <- app_assoc.
Qed.

Section resource.
Context `{GoRuntime}.

Lemma range_order_lookup k (attrs : gmap string Attribute) name :
  name ∈ range_order k attrs ↔ is_Some (attrs !! name).
Proof.
  rewrite range_order_perm, list_elem_of_fmap. split.
  - intros ([n a] & -> & Hin). apply elem_of_map_to_list in Hin. eauto.
  - intros [a Ha]. exists (name, a). split; [done|]. by apply elem_of_map_to_list.
Qed.

Lemma filter_range_order_Forall k (attrs : gmap string Attribute)
    (P : string → Prop) `{∀ x, Decision (P x)} :
  Forall (λ name, is_Some (attrs !! name)) (filter P (range_order k attrs)).
Proof.
  apply Forall_forall. intros name Hin. apply list_elem_of_filter in Hin as [_ Hin].
  by apply (range_order_lookup k).
Qed.

(** sortResourceParams never panics, performs one map iteration, and
    leaves the body [resourceBody] describes. *)
Lemma sortResourceParams_run block k :
  let attrs := Body_Attributes (Block_Body block) in
  let keys := range_order k attrs in
  sortResourceParams block k
  = Some (Block_setChildren block
            (resourceBody attrs (filter leading keys)
               (sort_Strings (filter ordinary keys))
               (Body_Blocks (Block_Body block))
               (bool_decide (metaArgDependsOn ∈ keys))),
          S k).
Proof.
  intros attrs keys. unfold sortResourceParams.
  erewrite Go_bind_run by reflexivity. fold attrs keys.
  rewrite foldl_bucket. cbn [namesFirst hasDependsOn names app orb].
  set (first := filter leading keys).
  set (rest := sort_Strings (filter ordinary keys)).
  set (blocks := Body_Blocks (Block_Body block)).
  assert (Forall (λ name, is_Some (attrs !! name)) first) as Hfirst
    by apply filter_range_order_Forall.
  assert (Forall (λ name, is_Some (attrs !! name)) rest) as Hrest.
  { unfold rest. rewrite sort_Strings_perm. apply filter_range_order_Forall. }
  erewrite Go_bind_run by by apply appendFirst_run.
  erewrite Go_bind_run by by apply appendAttrs_run.
  rewrite appendBlocks_run by done.
  rewrite !(bool_decide_ext _ _ (length_pos_iff first)).
  rewrite (bool_decide_ext (0 < length blocks ∧ (0 < length rest ∨ 0 < length first))
             (blocks ≠ [] ∧ (rest ≠ [] ∨ first ≠ [])))
    by by rewrite !length_pos_iff.
  rewrite (bool_decide_ext (0 < length blocks ∨ 0 < length rest ∨ 0 < length first)
             (blocks ≠ [] ∨ rest ≠ [] ∨ first ≠ []))
    by by rewrite !length_pos_iff.
  unfold resourceBody, Block_setChildren.
  destruct (bool_decide (metaArgDependsOn ∈ keys)) eqn:Hdep.
  - apply bool_decide_eq_true_1, (range_order_lookup k) in Hdep.
    erewrite Go_bind_run by by apply appendTrimmed_run.
    unfold mret, Go_ret. do 3 f_equal.
    destruct (bool_decide (first ≠ [])), (bool_decide (blocks ≠ [] ∧ _)),
      (bool_decide (blocks ≠ [] ∨ _)); appended; by rewrite Body_append_Clear.
  - erewrite Go_bind_run by reflexivity.
    unfold mret, Go_ret. do 3 f_equal.
    destruct (bool_decide (first ≠ [])), (bool_decide (blocks ≠ [] ∧ _));
      appended; by rewrite Body_append_Clear.
Qed.

End resource.

(** ** The locals sorter and the required_providers sorter *)

Section sorted_body.
Context `{GoRuntime}.

Lemma sorted_range_order k (body : Body) :
  sort_Strings (range_order k (Body_Attributes body)) = sortedNames body.
Proof. apply sort_Strings_unique, range_order_perm. Qed.

Lemma sortedNames_lookup body :
  Forall (λ name, is_Some (Body_Attributes body !! name)) (sortedNames body).
Proof.
  apply Forall_forall. intros name. unfold sortedNames.
  rewrite sort_Strings_perm, list_elem_of_fmap.
  intros ([n a] & -> & Hin). apply elem_of_map_to_list in Hin. eauto.
Qed.

Lemma sortLocalsBlock_run block k :
  sortLocalsBlock block k
  = Some (Block_setChildren block (sortedBody (Block_Body block)), S k).
Proof.
  unfold sortLocalsBlock. erewrite Go_bind_run by reflexivity.
  rewrite sorted_range_order.
  erewrite Go_bind_run by (apply appendAttrs_run; [apply sortedNames_lookup|done]).
  unfold mret, Go_ret, sortedBody, Block_setChildren.
  appended. by rewrite Body_append_Clear.
Qed.

Lemma sortRequiredProviders_run b k :
  sortRequiredProviders b k
  = Some (Block_setChildren b (sortedBody (Block_Body b)), S k).
Proof.
  unfold sortRequiredProviders. erewrite Go_bind_run by reflexivity.
  rewrite sorted_range_order.
  erewrite Go_bind_run by (apply appendAttrs_run; [apply sortedNames_lookup|done]).
  unfold mret, Go_ret, sortedBody, Block_setChildren.
  appended. by rewrite Body_append_Clear.
Qed.

Lemma sortRequiredProvidersInBody_run (children : list Node) : ∀ k,
  ∃ k', sortRequiredProvidersInBody children k
        = Some (sortedProviders <$> children, k').
Proof.
  induction children as [|n body IH]; intros k; [by exists k|].
  destruct n as [a|b|ts]; cbn [sortRequiredProvidersInBody fmap list_fmap].
  - destruct (IH k) as [k' Hk']. exists k'. by erewrite Go_bind_run by exact Hk'.
  - unfold sortedProviders at 1.
    destruct (decide (Block_Type b = "required_providers")) as [Hty|Hty].
    + rewrite bool_decide_eq_false_2 by tauto. rewrite bool_decide_eq_true_2 by done.
      erewrite Go_bind_run by apply sortRequiredProviders_run.
      destruct (IH (S k)) as [k' Hk']. exists k'. by erewrite Go_bind_run by exact Hk'.
    + rewrite bool_decide_eq_true_2 by done. rewrite bool_decide_eq_false_2 by done.
      erewrite Go_bind_run by reflexivity.
      destruct (IH k) as [k' Hk']. exists k'. by erewrite Go_bind_run by exact Hk'.
  - destruct (IH k) as [k' Hk']. exists k'. by erewrite Go_bind_run by exact Hk'.
Qed.

Lemma sortRequiredProvidersInBlock_run block k :
  ∃ k', sortRequiredProvidersInBlock block k
        = Some (Block_setChildren block
                  (sortedProviders <$> Body_children (Block_Body block)), k').
Proof.
  destruct (sortRequiredProvidersInBody_run (Body_children (Block_Body block)) k)
    as [k' Hk'].
  exists k'. unfold sortRequiredProvidersInBlock. by erewrite Go_bind_run by exact Hk'.
Qed.

End sorted_body.

(** ** The top-level sorter *)

Lemma blocksOf_app children1 children2 :
  blocksOf (children1 ++ children2) = blocksOf children1 ++ blocksOf children2.
Proof. apply omap_app. Qed.

Lemma blocksOf_sepBy blocks : blocksOf (sepBy NL (NodeBlock <$> blocks)) = blocks.
Proof.
  induction blocks as [|b [|b' blocks] IH]; [done|done|].
  change (NodeBlock <$> b :: b' :: blocks)
    with (NodeBlock b :: (NodeBlock <$> b' :: blocks)).
  rewrite fmap_cons, sepBy_cons_cons, <- fmap_cons.
  change (blocksOf (NodeBlock b :: NL :: ?l)) with (b :: blocksOf l).
  by rewrite IH.
Qed.

Lemma StronglySorted_fmap_inv {A B} (f : A → B)
    (R1 : relation B) (R2 : relation A) l :
  (∀ x y, R1 (f x) (f y) → R2 x y) →
  StronglySorted R1 (f <$> l) → StronglySorted R2 l.
Proof.
  intros HR. induction l as [|x l IH]; [constructor|].
  rewrite fmap_cons. intros Hs. apply StronglySorted_inv in Hs as [Hl Hx].
  constructor; [by apply IH|].
  rewrite Forall_fmap in Hx. eapply Forall_impl; [exact Hx|]. intros y. apply HR.
Qed.

Section top_level.
Context `{GoRuntime}.
Implicit Types (allowedBlocks : gmap string bool).

Lemma partitionBlocks_run allowedBlocks blocks : ∀ items others k,
  partitionBlocks allowedBlocks blocks items others k
  = Some ((items ++ (toItem <$> filter (sortable allowedBlocks) blocks),
           others ++ filter (λ b, ¬ sortable allowedBlocks b) blocks), k).
Proof.
  induction blocks as [|b blocks IH]; intros items others k; cbn [partitionBlocks].
  - by rewrite !filter_nil, !app_nil_r.
  - rewrite !filter_cons.
    destruct (decide (sortable allowedBlocks b)) as [Hs|Hs].
    + rewrite decide_False by tauto. destruct Hs as [Hallowed Hlabels].
      rewrite Hallowed, bool_decide_eq_true_2 by done. cbn [andb].
      destruct b as [ty [|label labels] body]; [simpl in Hlabels; lia|].
      erewrite Go_bind_run by reflexivity.
      rewrite IH. by rewrite fmap_cons, <- app_assoc.
    + rewrite decide_True by done.
      assert (allowed allowedBlocks (Block_Type b)
              && bool_decide (0 < length (Block_Labels b)) = false) as ->.
      { apply not_true_is_false. rewrite andb_true_iff, bool_decide_eq_true. exact Hs. }
      rewrite IH. by rewrite <- app_assoc.
Qed.

Lemma appendOther_run others : ∀ n m i body,
  n = i + length others →
  appendOther n m i others body
  = Body_append body
      (if bool_decide (0 < m) then endBy NL (NodeBlock <$> others)
       else sepBy NL (NodeBlock <$> others)).
Proof.
  induction others as [|b others IH]; intros n m i body Hn; cbn [appendOther].
  - case_bool_decide; simpl; by rewrite Body_append_nil.
  - rewrite (IH n m (S i)) by (simpl in Hn; lia).
    destruct (decide (0 < m)) as [Hm|Hm].
    + rewrite bool_decide_eq_true_2 by tauto. rewrite bool_decide_eq_true_2 by done.
      by appended.
    + rewrite (bool_decide_eq_false_2 (0 < m)) by done.
      destruct others as [|b' others]; simpl in Hn.
      * rewrite bool_decide_eq_false_2 by lia. by appended.
      * rewrite bool_decide_eq_true_2 by lia. by appended.
Qed.

Lemma appendSortable_run items : ∀ n i body,
  n = i + length items →
  appendSortable n i items body
  = Body_append body (sepBy NL (NodeBlock <$> (Block_ <$> items))).
Proof.
  induction items as [|sb items IH]; intros n i body Hn; cbn [appendSortable].
  - by rewrite Body_append_nil.
  - rewrite (IH n (S i)) by (simpl in Hn; lia).
    destruct items as [|sb' items]; simpl in Hn.
    + rewrite bool_decide_eq_false_2 by lia. by appended.
    + rewrite bool_decide_eq_true_2 by lia. by appended.
Qed.

(** The two emitting loops of ProcessAndSortBlocks together. *)
Lemma append_both others items body :
  appendSortable (length items) 0 items
    (appendOther (length others) (length items) 0 others (Body_Clear body))
  = MkBody (sepBy NL (NodeBlock <$> (others ++ (Block_ <$> items))))
      (Body_items body).
Proof.
  rewrite appendSortable_run, appendOther_run by done.
  rewrite Body_append_app, Body_append_Clear. f_equal.
  destruct items as [|sb items].
  - rewrite bool_decide_eq_false_2 by (simpl; lia). simpl. by rewrite !app_nil_r.
  - rewrite bool_decide_eq_true_2 by (simpl; lia).
    rewrite fmap_app, sepBy_app; done.
Qed.

Lemma Block_setBody_id block : Block_setBody block (Block_Body block) = block.
Proof. by destruct block. Qed.

Lemma sortBlockParams_run block k :
  ∃ body' k', sortBlockParams block k = Some (Block_setBody block body', k').
Proof.
  unfold sortBlockParams. repeat case_bool_decide.
  - destruct (sortRequiredProvidersInBlock_run block k) as [k' Hk'].
    unfold Block_setChildren in Hk'. eauto.
  - eexists _, _. apply sortResourceParams_run.
  - eexists _, _. apply sortLocalsBlock_run.
  - exists (Block_Body block), k. by rewrite Block_setBody_id.
Qed.

Lemma sortBlocksInBody_run (children : list Node) : ∀ k,
  ∃ children' k', sortBlocksInBody children k = Some (children', k') ∧
    header <$> blocksOf children' = header <$> blocksOf children.
Proof.
  induction children as [|n body IH]; intros k; [by exists [], k|].
  destruct n as [a|b|ts]; cbn [sortBlocksInBody].
  - destruct (IH k) as (body' & k' & Hrun & Hhd). exists (NodeAttribute a :: body'), k'.
    by erewrite Go_bind_run by exact Hrun.
  - destruct (sortBlockParams_run b k) as (bb & k1 & Hb).
    destruct (IH k1) as (body' & k' & Hrun & Hhd).
    exists (NodeBlock (Block_setBody b bb) :: body'), k'.
    erewrite Go_bind_run by exact Hb. erewrite Go_bind_run by exact Hrun.
    split; [done|].
    change (blocksOf (NodeBlock ?x :: ?l)) with (x :: blocksOf l).
    rewrite !fmap_cons, Hhd. by destruct b.
  - destruct (IH k) as (body' & k' & Hrun & Hhd). exists (NodeTokens ts :: body'), k'.
    by erewrite Go_bind_run by exact Hrun.
Qed.

Lemma ProcessAndSortBlocks_run file allowedBlocks k children1 k1 :
  sortBlocksInBody (Body_children (File_Body file)) k = Some (children1, k1) →
  ProcessAndSortBlocks file allowedBlocks k
  = Some (MkFile (MkBody
            (sepBy NL (NodeBlock <$>
              (filter (λ b, ¬ sortable allowedBlocks b) (blocksOf children1)
               ++ sortedBlocks allowedBlocks (blocksOf children1))))
            (Body_items (File_Body file))), k1).
Proof.
  intros Hrun. unfold ProcessAndSortBlocks.
  erewrite Go_bind_run by exact Hrun.
  erewrite Go_bind_run by apply partitionBlocks_run.
  cbn [app]. by rewrite append_both.
Qed.

Lemma sortedBlocks_perm allowedBlocks blocks :
  sortedBlocks allowedBlocks blocks ≡ₚ filter (sortable allowedBlocks) blocks.
Proof.
  unfold sortedBlocks. rewrite sort_Slice_perm, <- list_fmap_compose.
  by rewrite list_fmap_id.
Qed.

Lemma sort_Slice_items (blocks : list Block) :
  sort_Slice lessName (toItem <$> blocks)
  = toItem <$> (Block_ <$> sort_Slice lessName (toItem <$> blocks)).
Proof.
  rewrite <- list_fmap_compose. symmetry. etrans; [|apply list_fmap_id].
  apply list_fmap_ext. intros _ sb Hsb%list_elem_of_lookup_2.
  rewrite sort_Slice_perm in Hsb. apply list_elem_of_fmap in Hsb as (b & -> & _).
  done.
Qed.

Lemma lessName_StrictWeakOrder : StrictWeakOrder lessName.
Proof. apply (ltb_StrictWeakOrder Name). Qed.

Lemma sortedBlocks_nil allowedBlocks : sortedBlocks allowedBlocks [] = [].
Proof. apply Permutation_nil_r. by rewrite sortedBlocks_perm. Qed.

Lemma sortedBlocks_sorted allowedBlocks blocks :
  StronglySorted (λ a b, str_le (firstLabel a) (firstLabel b))
    (sortedBlocks allowedBlocks blocks).
Proof.
  pose proof (sort_Slice_sorted lessName
    (toItem <$> filter (sortable allowedBlocks) blocks)
    lessName_StrictWeakOrder) as Hsorted.
  rewrite sort_Slice_items in Hsorted. fold (sortedBlocks allowedBlocks blocks) in Hsorted.
  revert Hsorted. apply StronglySorted_fmap_inv.
  intros a b Hab. by apply ltb_false_le in Hab.
Qed.

End top_level.

(** ** What a rebuilt body holds *)

Lemma Forall2_fmap_intro {A B} (R : A → B → Prop) (f : A → B) l :
  (∀ x, R x (f x)) → Forall2 R l (f <$> l).
Proof. intros HR. induction l; constructor; auto. Qed.

Lemma sortedNames_spec body :
  StronglySorted str_le (sortedNames body) ∧ NoDup (sortedNames body) ∧
  ∀ name, name ∈ sortedNames body ↔ is_Some (Body_Attributes body !! name).
Proof.
  unfold sortedNames. split; [apply sort_Strings_sorted|]. split.
  - rewrite sort_Strings_perm. apply NoDup_fst_map_to_list.
  - intros name. rewrite sort_Strings_perm, list_elem_of_fmap. split.
    + intros ([n a] & -> & Hin). apply elem_of_map_to_list in Hin. eauto.
    + intros [a Ha]. exists (name, a). split; [done|]. by apply elem_of_map_to_list.
Qed.

Lemma sortedBody_nodes body :
  Forall (λ n, n = NL ∨
               ∃ name a, Body_Attributes body !! name = Some a ∧
                         n = NodeTokens (trim (Attribute_BuildTokens a)))
    (sortedBody body).
Proof.
  unfold sortedBody. rewrite !Forall_app. split; [|split].
  - constructor; [by left|constructor].
  - apply Forall_forall. intros n Hn.
    apply sepBy_elem_of_inv in Hn as [->|Hn]; [by left|].
    apply list_elem_of_fmap in Hn as (name & -> & Hname).
    apply sortedNames_spec in Hname as [a Ha].
    right. exists name, a. split; [done|]. unfold relocated. by rewrite Ha.
  - constructor; [by left|constructor].
Qed.

Lemma tokens_only_Blocks (children : list Node) :
  Forall (λ n, ∃ ts, n = NodeTokens ts) children → blocksOf children = [].
Proof. induction 1 as [|n body [ts ->] _ IH]; [done|]. exact IH. Qed.

Lemma endBy_elem_of {A} (sep : A) l x : x ∈ l → x ∈ endBy sep l.
Proof.
  unfold endBy. rewrite !list_elem_of_In, in_flat_map. intros Hx.
  exists x. split; [done|]. by left.
Qed.

Lemma relocated_lookup attrs name a :
  attrs !! name = Some a →
  relocated attrs name = NodeTokens (trim (Attribute_BuildTokens a)).
Proof. intros Ha. unfold relocated. by rewrite Ha. Qed.

Lemma sortedBody_contains body name :
  is_Some (Body_Attributes body !! name) →
  relocated (Body_Attributes body) name ∈ sortedBody body.
Proof.
  intros Hname. unfold sortedBody. rewrite !elem_of_app. right. left.
  apply sepBy_elem_of, list_elem_of_fmap. exists name. split; [done|].
  by apply sortedNames_spec.
Qed.

Lemma resourceBody_contains attrs keys blocks name :
  name ∈ keys →
  relocated attrs name
  ∈ resourceBody attrs (filter leading keys) (sort_Strings (filter ordinary keys))
      blocks (bool_decide (metaArgDependsOn ∈ keys)).
Proof.
  intros Hname. unfold resourceBody. rewrite !elem_of_app.
  destruct (decide (leading name)) as [Hl|Hl].
  { right. left. apply endBy_elem_of, list_elem_of_fmap. exists name.
    split; [done|]. by apply list_elem_of_filter. }
  destruct (decide (name = metaArgDependsOn)) as [->|Hd].
  { do 6 right. left. rewrite bool_decide_eq_true_2 by done.
    rewrite elem_of_app. right. by left. }
  do 3 right. left. apply sepBy_elem_of, list_elem_of_fmap. exists name.
  split; [done|]. rewrite sort_Strings_perm. by apply list_elem_of_filter.
Qed.

Lemma resourceBody_contains_block attrs first rest blocks dep b :
  b ∈ blocks → NodeBlock b ∈ resourceBody attrs first rest blocks dep.
Proof.
  intros Hb. unfold resourceBody. rewrite !elem_of_app. do 5 right. left.
  apply sepBy_elem_of, list_elem_of_fmap. by exists b.
Qed.

Lemma elem_of_blocksOf (children : list Node) b :
  b ∈ blocksOf children ↔ NodeBlock b ∈ children.
Proof.
  unfold blocksOf. rewrite list_elem_of_omap. split.
  - by intros ([a|b'|ts] & Hin & [= <-]).
  - intros Hin. by exists (NodeBlock b).
Qed.

(** ** Filters, headers and first labels *)

Lemma fmap_filter_comm {A C} (f : A → C) (P : A → Prop) (Q : C → Prop)
    `{∀ x, Decision (P x)} `{∀ y, Decision (Q y)} (l : list A) :
  (∀ x, P x ↔ Q (f x)) → f <$> filter P l = filter Q (f <$> l).
Proof.
  intros HPQ. induction l as [|x l IH]; [done|].
  rewrite fmap_cons, !filter_cons.
  destruct (decide (P x)) as [HP|HP].
  - rewrite decide_True by by apply HPQ. by rewrite fmap_cons, IH.
  - rewrite decide_False by by rewrite <- HPQ. done.
Qed.

Lemma header_filter_sortable allowedBlocks (blocks : list Block) :
  header <$> filter (sortable allowedBlocks) blocks
  = filter (sortableHeader allowedBlocks) (header <$> blocks).
Proof. by apply fmap_filter_comm. Qed.

Lemma firstLabel_header (blocks : list Block) :
  firstLabel <$> blocks = headerLabel <$> (header <$> blocks).
Proof. by rewrite <- list_fmap_compose. Qed.

Lemma filter_all {A} (P : A → Prop) `{∀ x, Decision (P x)} (l : list A) :
  Forall P l → filter P l = l.
Proof.
  induction 1 as [|x l HP _ IH]; [done|].
  by rewrite filter_cons, decide_True, IH.
Qed.

Lemma filter_none {A} (P : A → Prop) `{∀ x, Decision (P x)} (l : list A) :
  Forall (λ x, ¬ P x) l → filter P l = [].
Proof.
  induction 1 as [|x l HP _ IH]; [done|].
  by rewrite filter_cons, decide_False, IH.
Qed.

Lemma Forall_filter_self {A} (P : A → Prop) `{∀ x, Decision (P x)} (l : list A) :
  Forall P (filter P l).
Proof.
  apply Forall_forall. intros x Hx. by apply list_elem_of_filter in Hx as [? _].
Qed.

Lemma NoDup_fmap_inj_on {A B} (f : A → B) (l : list A) x y :
  NoDup (f <$> l) → x ∈ l → y ∈ l → f x = f y → x = y.
Proof.
  induction l as [|z l IH]; [by intros _ ?%elem_of_nil|].
  rewrite fmap_cons, NoDup_cons, !elem_of_cons.
  intros [Hz Hl] [->|Hx] [->|Hy] Hf; [done| | |by apply IH].
  - destruct Hz. rewrite Hf. by apply list_elem_of_fmap_2.
  - destruct Hz. rewrite <- Hf. by apply list_elem_of_fmap_2.
Qed.

(** ** Canonical results *)

Lemma tokens_only_sepBy attrs (names : list string) :
  Forall (λ n, ∃ ts, n = NodeTokens ts) (sepBy NL (relocated attrs <$> names)).
Proof.
  apply Forall_forall. intros n Hn.
  apply sepBy_elem_of_inv in Hn as [->|Hn]; [by eexists|].
  apply list_elem_of_fmap in Hn as (name & -> & _). by eexists.
Qed.

Lemma tokens_only_endBy attrs (names : list string) :
  Forall (λ n, ∃ ts, n = NodeTokens ts) (endBy NL (relocated attrs <$> names)).
Proof.
  induction names as [|name names IH]; [constructor|].
  constructor; [by eexists|]. constructor; [by eexists|]. exact IH.
Qed.

Lemma blocksOf_resourceBody attrs first rest blocks dep :
  blocksOf (resourceBody attrs first rest blocks dep) = blocks.
Proof.
  unfold resourceBody. rewrite !blocksOf_app, blocksOf_sepBy.
  rewrite (tokens_only_Blocks (endBy _ _)) by apply tokens_only_endBy.
  rewrite (tokens_only_Blocks (sepBy _ (relocated _ <$> _)))
    by apply tokens_only_sepBy.
  assert (∀ (c : bool) (l : list Node),
            Forall (λ n, ∃ ts, n = NodeTokens ts) l →
            blocksOf (if c then l else []) = []) as Hif.
  { intros [] l Hl; [by apply tokens_only_Blocks|done]. }
  rewrite !Hif; [by rewrite app_nil_r| | |].
  - apply Forall_app. split; [|repeat constructor; by eexists].
    case_bool_decide; repeat constructor; by eexists.
  - repeat constructor; by eexists.
  - repeat constructor; by eexists.
Qed.

Lemma at_most_one_eq {A} (l1 l2 : list A) :
  l1 ≡ₚ l2 → length l1 ≤ 1 → l1 = l2.
Proof.
  intros Hperm Hlen. destruct l1 as [|x [|y l1]]; [| |simpl in Hlen; lia].
  - by apply Permutation_nil in Hperm.
  - by apply Permutation_singleton_l in Hperm.
Qed.

Lemma leading_at_most_one (attrs : gmap string Attribute) keys :
  ¬ (is_Some (attrs !! "count") ∧ is_Some (attrs !! "for_each")) →
  NoDup keys → (∀ name, name ∈ keys ↔ is_Some (attrs !! name)) →
  length (filter leading keys) ≤ 1.
Proof.
  intros Hone Hnodup Hkeys.
  assert (NoDup (filter leading keys)) as Hnd by by apply NoDup_filter.
  assert (∀ name, name ∈ filter leading keys →
            leading name ∧ is_Some (attrs !! name)) as Hin.
  { intros name Hname. apply list_elem_of_filter in Hname as [? ?].
    split; [done|]. by apply Hkeys. }
  destruct (filter leading keys) as [|x [|y l]]; [simpl; lia..|].
  exfalso. apply NoDup_cons in Hnd as [Hxy _]. rewrite not_elem_of_cons in Hxy.
  destruct (Hin x) as [Hx Hsx]; [left|].
  destruct (Hin y) as [Hy Hsy]; [right; left|].
  unfold leading, metaArgCount, metaArgForEach in Hx, Hy.
  destruct Hxy as [Hne _].
  destruct Hx as [->| ->], Hy as [->| ->]; [done| | |done].
  - by apply Hone.
  - by apply Hone.
Qed.

Section canonical.
Context `{GoRuntime}.

(** With at most one of count and for_each, sortResourceParams returns the
    block it returns for an increasing map iteration. *)
Lemma sortResourceParams_sortedParams block k :
  oneLeading (Block_Body block) →
  sortResourceParams block k = Some (sortedParams block, S k).
Proof.
  intros Hone. rewrite sortResourceParams_run. unfold sortedParams.
  set (attrs := Body_Attributes (Block_Body block)).
  set (keys := range_order k attrs).
  assert (keys ≡ₚ sortedNames (Block_Body block)) as Hperm.
  { unfold keys, sortedNames. by rewrite range_order_perm, sort_Strings_perm. }
  assert (filter leading keys = filter leading (sortedNames (Block_Body block)))
    as ->.
  { apply at_most_one_eq; [by apply (filter_Permutation leading)|].
    apply (leading_at_most_one attrs); [done| |].
    - unfold keys. rewrite range_order_perm. apply NoDup_fst_map_to_list.
    - intros name. apply range_order_lookup. }
  assert (sort_Strings (filter ordinary keys)
          = sort_Strings (filter ordinary (sortedNames (Block_Body block)))) as ->.
  { apply sort_Strings_unique. by apply (filter_Permutation ordinary). }
  assert (bool_decide (metaArgDependsOn ∈ keys)
          = bool_decide (metaArgDependsOn ∈ sortedNames (Block_Body block))) as ->.
  { apply bool_decide_ext. by rewrite Hperm. }
  done.
Qed.

End canonical.

Section canonical_file.
Context `{GoRuntime}.

Lemma sortBlockParams_canonical block k :
  (Block_Type block = "resource" → oneLeading (Block_Body block)) →
  ∃ k', sortBlockParams block k = Some (canonicalBlock block, k').
Proof.
  intros Hone. unfold sortBlockParams, canonicalBlock. repeat case_bool_decide.
  - apply sortRequiredProvidersInBlock_run.
  - eexists. by apply sortResourceParams_sortedParams, Hone.
  - eexists. apply sortLocalsBlock_run.
  - by exists k.
Qed.

Lemma sortBlocksInBody_canonical (children : list Node) : ∀ k,
  Forall (λ b, Block_Type b = "resource" → oneLeading (Block_Body b))
    (blocksOf children) →
  ∃ k', sortBlocksInBody children k = Some (canonicalNode <$> children, k').
Proof.
  induction children as [|n body IH]; intros k Hone; [by exists k|].
  destruct n as [a|b|ts]; cbn [sortBlocksInBody].
  - destruct (IH k Hone) as [k' Hk']. exists k'.
    by erewrite Go_bind_run by exact Hk'.
  - change (blocksOf (NodeBlock b :: body)) with (b :: blocksOf body) in Hone.
    apply Forall_cons in Hone as [Hb Hone].
    destruct (sortBlockParams_canonical b k Hb) as [k1 Hk1].
    destruct (IH k1 Hone) as [k' Hk']. exists k'.
    erewrite Go_bind_run by exact Hk1. by erewrite Go_bind_run by exact Hk'.
  - destruct (IH k Hone) as [k' Hk']. exists k'.
    by erewrite Go_bind_run by exact Hk'.
Qed.

Lemma blocksOf_canonical (children : list Node) :
  blocksOf (canonicalNode <$> children) = canonicalBlock <$> blocksOf children.
Proof.
  induction children as [|[a|b|ts] body IH]; [done|exact IH| |exact IH].
  change (canonicalBlock b :: blocksOf (canonicalNode <$> body)
          = canonicalBlock b :: (canonicalBlock <$> blocksOf body)).
  by rewrite IH.
Qed.

Lemma canonicalBlock_header block : header (canonicalBlock block) = header block.
Proof.
  unfold canonicalBlock, sortedParams. repeat case_bool_decide; by destruct block.
Qed.

Lemma canonicalBlock_items block :
  Body_items (Block_Body (canonicalBlock block)) = Body_items (Block_Body block).
Proof.
  unfold canonicalBlock, sortedParams. repeat case_bool_decide; by destruct block.
Qed.

Lemma header_canonical (children : list Node) :
  header <$> blocksOf (canonicalNode <$> children) = header <$> blocksOf children.
Proof.
  rewrite blocksOf_canonical, <- list_fmap_compose.
  apply list_fmap_ext. intros _ b _. apply canonicalBlock_header.
Qed.

End canonical_file.

(** ** The same pass, once more *)

Lemma Block_setChildren_twice block children1 children2 :
  Block_setChildren (Block_setChildren block children1) children2
  = Block_setChildren block children2.
Proof. done. Qed.

Lemma sortedProviders_twice n : sortedProviders (sortedProviders n) = sortedProviders n.
Proof.
  destruct n as [a|b|ts]; [done| |done]. simpl.
  destruct (decide (Block_Type b = "required_providers")) as [Hty|Hty].
  - rewrite (bool_decide_eq_true_2 _ Hty). simpl.
    by rewrite (bool_decide_eq_true_2 _ Hty).
  - rewrite (bool_decide_eq_false_2 _ Hty). simpl.
    by rewrite (bool_decide_eq_false_2 _ Hty).
Qed.

Lemma Body_Blocks_MkBody children items :
  Body_Blocks (MkBody children items) = blocksOf children.
Proof. done. Qed.

Lemma sortedParams_twice block : sortedParams (sortedParams block) = sortedParams block.
Proof.
  destruct block as [ty labels [ch items]].
  unfold sortedParams, Block_setChildren, sortedNames.
  cbn [Block_setBody Block_Body Block_Type Block_Labels Body_items Body_Attributes].
  by rewrite (Body_Blocks_MkBody (resourceBody _ _ _ _ _)), blocksOf_resourceBody.
Qed.

(** The [switch] of ProcessAndSortBlocks changes nothing in a block it
    has already sorted. *)
Lemma canonicalBlock_twice block :
  canonicalBlock (canonicalBlock block) = canonicalBlock block.
Proof.
  unfold canonicalBlock at 2.
  destruct (decide (Block_Type block = "terraform")) as [Ht|Ht].
  { rewrite (bool_decide_eq_true_2 _ Ht). unfold canonicalBlock.
    change (Block_Type (Block_setChildren block ?c)) with (Block_Type block).
    rewrite (bool_decide_eq_true_2 _ Ht), Block_setChildren_twice. f_equal.
    cbn [Block_setChildren Block_setBody Block_Body Body_children].
    rewrite <- list_fmap_compose. apply list_fmap_ext.
    intros _ n _. apply sortedProviders_twice. }
  rewrite (bool_decide_eq_false_2 _ Ht).
  destruct (decide (Block_Type block = "resource")) as [Hr|Hr].
  { rewrite (bool_decide_eq_true_2 _ Hr). unfold canonicalBlock.
    change (Block_Type (sortedParams block)) with (Block_Type block).
    rewrite (bool_decide_eq_false_2 _ Ht), (bool_decide_eq_true_2 _ Hr).
    apply sortedParams_twice. }
  rewrite (bool_decide_eq_false_2 _ Hr).
  destruct (decide (Block_Type block = "locals")) as [Hl|Hl].
  { rewrite (bool_decide_eq_true_2 _ Hl). unfold canonicalBlock.
    change (Block_Type (Block_setChildren block ?c)) with (Block_Type block).
    by rewrite (bool_decide_eq_false_2 _ Ht), (bool_decide_eq_false_2 _ Hr),
      (bool_decide_eq_true_2 _ Hl). }
  rewrite (bool_decide_eq_false_2 _ Hl). unfold canonicalBlock.
  by rewrite (bool_decide_eq_false_2 _ Ht), (bool_decide_eq_false_2 _ Hr),
    (bool_decide_eq_false_2 _ Hl).
Qed.

Lemma fmap_sepBy {A B} (f : A → B) (sep : A) l :
  f <$> sepBy sep l = sepBy (f sep) (f <$> l).
Proof.
  induction l as [|x [|y l] IH]; [done|done|].
  rewrite sepBy_cons_cons, !fmap_cons, IH. done.
Qed.

Lemma canonicalNode_sepBy (blocks : list Block) :
  canonicalNode <$> sepBy NL (NodeBlock <$> blocks)
  = sepBy NL (NodeBlock <$> (canonicalBlock <$> blocks)).
Proof.
  rewrite fmap_sepBy, <- !list_fmap_compose. done.
Qed.

Section second_pass.
Context `{GoRuntime}.
Implicit Types (allowedBlocks : gmap string bool) (blocks : list Block).

Lemma sortedBlocks_sortable allowedBlocks blocks :
  Forall (sortable allowedBlocks) (sortedBlocks allowedBlocks blocks).
Proof. rewrite sortedBlocks_perm. apply Forall_filter_self. Qed.

Lemma emitted_perm allowedBlocks blocks : emitted allowedBlocks blocks ≡ₚ blocks.
Proof.
  unfold emitted. rewrite sortedBlocks_perm, Permutation_app_comm.
  apply filter_app_complement.
Qed.

(** When [sort.Slice] leaves a sorted slice as it is, the second pass of
    ProcessAndSortBlocks emits the blocks it emitted before in the order it
    finds them. *)
Lemma emitted_twice allowedBlocks blocks :
  (∀ items, StronglySorted (λ a b, lessName b a = false) items →
            sort_Slice lessName items = items) →
  emitted allowedBlocks (emitted allowedBlocks blocks) = emitted allowedBlocks blocks.
Proof.
  intros Hkeep. unfold emitted.
  set (others := filter (λ b, ¬ sortable allowedBlocks b) blocks).
  set (sorted := sortedBlocks allowedBlocks blocks).
  assert (Forall (λ b, ¬ sortable allowedBlocks b) others) as Hothers
    by apply (Forall_filter_self (λ b, ¬ sortable allowedBlocks b)).
  assert (Forall (sortable allowedBlocks) sorted) as Hsorted
    by apply sortedBlocks_sortable.
  assert (filter (λ b, ¬ sortable allowedBlocks b) (others ++ sorted) = others) as ->.
  { rewrite filter_app, (filter_all _ others Hothers).
    rewrite (filter_none (λ b, ¬ sortable allowedBlocks b) sorted).
    - by rewrite app_nil_r.
    - eapply Forall_impl; [exact Hsorted|]. intros b Hb Hnot. by apply Hnot. }
  f_equal. unfold sortedBlocks at 1.
  assert (filter (sortable allowedBlocks) (others ++ sorted) = sorted) as ->.
  { rewrite filter_app, (filter_all _ sorted Hsorted).
    by rewrite (filter_none (sortable allowedBlocks) others). }
  unfold sorted, sortedBlocks. rewrite <- sort_Slice_items.
  rewrite Hkeep; [done|]. apply sort_Slice_sorted, lessName_StrictWeakOrder.
Qed.

End second_pass.

(** Insertion sort leaves a sorted list as it is. *)
Lemma insertSorted_last {A} (less : A → A → bool) x l :
  Forall (λ y, less x y = false) l → insertSorted less x l = l ++ [x].
Proof.
  induction 1 as [|y l Hy _ IH]; [done|]. simpl. by rewrite Hy, IH.
Qed.

Lemma insertionSort_sorted_id {A} (less : A → A → bool) l :
  StronglySorted (λ a b, less b a = false) l → insertionSort less l = l.
Proof.
  unfold insertionSort. change l with ([] ++ l) at 1 3.
  generalize (@nil A). induction l as [|x l IH]; intros acc Hsorted; simpl.
  - by rewrite app_nil_r.
  - rewrite insertSorted_last.
    + rewrite IH; rewrite <- app_assoc; done.
    + clear IH. induction acc as [|y acc IH]; [constructor|].
      simpl in Hsorted. apply StronglySorted_inv in Hsorted as [Hs Hy].
      constructor; [|by apply IH].
      rewrite Forall_app, Forall_cons in Hy. by destruct Hy as (_ & ? & _).
Qed.

(** ** Two names in some order *)

Lemma NoDup_two_elements {A} (a b : A) (l : list A) :
  a ≠ b → NoDup l → (∀ x, x ∈ l ↔ x = a ∨ x = b) → l = [a; b] ∨ l = [b; a].
Proof.
  intros Hab Hnodup Hl.
  assert (a ∈ l) as Ha by (apply Hl; by left).
  assert (b ∈ l) as Hb by (apply Hl; by right).
  destruct l as [|x [|y [|z l]]].
  - by apply elem_of_nil in Ha.
  - apply list_elem_of_singleton in Ha, Hb. congruence.
  - apply NoDup_cons in Hnodup as [Hxy _]. rewrite list_elem_of_singleton in Hxy.
    assert (x = a ∨ x = b) as Hx by (apply Hl; left).
    assert (y = a ∨ y = b) as Hy by (apply Hl; right; left).
    destruct Hx as [->| ->], Hy as [->| ->]; auto; done.
  - apply NoDup_cons in Hnodup as [Hx Hnodup].
    apply NoDup_cons in Hnodup as [Hy _].
    rewrite not_elem_of_cons in Hy. rewrite !not_elem_of_cons in Hx.
    assert (x = a ∨ x = b) as Hx' by (apply Hl; left).
    assert (y = a ∨ y = b) as Hy' by (apply Hl; right; left).
    assert (z = a ∨ z = b) as Hz' by (apply Hl; right; right; left).
    destruct Hx as (? & ? & _), Hy as (? & _).
    destruct Hx' as [->| ->], Hy' as [->| ->], Hz' as [->| ->]; done.
Qed.

(** * The claims *)

(** C1. ProcessAndSortBlocks, after its first loop has left the top-level
    body with the children [body1] (the same blocks, with the types and
    labels they had, some with a rebuilt body), replaces these children by
    the blocks of [body1] that are not sortable, in their order in [body1],
    followed by the sortable ones in increasing order of their first labels,
    with one newline node after each block but the last. A block is sortable
    exactly when [allowedBlocks] holds true for its type and it has a
    label. *)
Theorem ProcessAndSortBlocks_order `{GoRuntime}
    (file : File) (allowedBlocks : gmap string bool) (k : nat) :
  ∃ body1 k1 sorted,
    sortBlocksInBody (Body_children (File_Body file)) k = Some (body1, k1) ∧
    header <$> blocksOf body1 = header <$> Body_Blocks (File_Body file) ∧
    ProcessAndSortBlocks file allowedBlocks k
    = Some (MkFile (MkBody
        (sepBy NL (NodeBlock <$>
          (filter (λ b, ¬ (allowed allowedBlocks (Block_Type b) = true
                           ∧ 0 < length (Block_Labels b)))
             (blocksOf body1)
           ++ sorted)))
        (Body_items (File_Body file))), k1) ∧
    sorted ≡ₚ filter (λ b, allowed allowedBlocks (Block_Type b) = true
                           ∧ 0 < length (Block_Labels b))
                (blocksOf body1) ∧
    StronglySorted (λ a b, str_le (firstLabel a) (firstLabel b)) sorted.
Proof.
  destruct (sortBlocksInBody_run (Body_children (File_Body file)) k)
    as (body1 & k1 & Hrun & Hhd).
  exists body1, k1, (sortedBlocks allowedBlocks (blocksOf body1)).
  split; [done|]. split; [done|]. split; [by apply ProcessAndSortBlocks_run|].
  split; [apply sortedBlocks_perm|apply sortedBlocks_sorted].
Qed.

(** C2. sortResourceParams, which ProcessAndSortBlocks calls on a block of
    type resource, replaces the body of the block by: a newline;
    (a) the attributes named count or for_each, each followed by a newline;
    (b) the attributes with any other name but depends_on, in increasing
    order of their names, one newline between two of them; (c) the nested
    blocks in their original order, one newline between two of them; (d)
    the attribute depends_on when the body has one; (e) a newline. Between
    two groups there are only newlines, and none unless a group before them
    is not empty. *)
Theorem sortResourceParams_groups `{GoRuntime} (block : Block) (k : nat) :
  let attrs := Body_Attributes (Block_Body block) in
  ∃ first rest gap_b gap_c gap_d,
    let group_a := endBy NL (relocated attrs <$> first) in
    let group_b := sepBy NL (relocated attrs <$> rest) in
    let group_c := sepBy NL (NodeBlock <$> Body_Blocks (Block_Body block)) in
    let group_d :=
      if bool_decide (is_Some (attrs !! "depends_on"))
      then [relocated attrs "depends_on"] else [] in
    (Block_Type block = "resource" →
     sortBlockParams block k = sortResourceParams block k) ∧
    sortResourceParams block k
    = Some (Block_setChildren block
              ([NL] ++ group_a ++ gap_b ++ group_b ++ gap_c ++ group_c
                    ++ gap_d ++ group_d ++ [NL]), S k) ∧
    NoDup first ∧
    (∀ name, name ∈ first ↔
       is_Some (attrs !! name) ∧ (name = "count" ∨ name = "for_each")) ∧
    StronglySorted str_le rest ∧ NoDup rest ∧
    (∀ name, name ∈ rest ↔
       is_Some (attrs !! name) ∧ name ≠ "count" ∧ name ≠ "for_each"
       ∧ name ≠ "depends_on") ∧
    Forall (λ n, n = NL) (gap_b ++ gap_c ++ gap_d) ∧
    (gap_b ≠ [] → group_a ≠ []) ∧
    (gap_c ≠ [] → group_a ≠ [] ∨ group_b ≠ []) ∧
    (gap_d ≠ [] → group_a ≠ [] ∨ group_b ≠ [] ∨ group_c ≠ []).
Proof.
  intros attrs. set (keys := range_order k attrs).
  set (blocks := Body_Blocks (Block_Body block)).
  set (first := filter leading keys).
  set (rest := sort_Strings (filter ordinary keys)).
  assert (NoDup keys) as Hnodup.
  { unfold keys. rewrite range_order_perm. apply NoDup_fst_map_to_list. }
  assert (bool_decide (metaArgDependsOn ∈ keys)
          = bool_decide (is_Some (attrs !! "depends_on"))) as Hdep.
  { apply bool_decide_ext, range_order_lookup. }
  exists first, rest,
    (if bool_decide (first ≠ []) then [NL] else []),
    (if bool_decide (blocks ≠ [] ∧ (rest ≠ [] ∨ first ≠ [])) then [NL; NL] else []),
    (if bool_decide (is_Some (attrs !! "depends_on"))
     then (if bool_decide (blocks ≠ [] ∨ rest ≠ [] ∨ first ≠ []) then [NL] else [])
     else []).
  cbv zeta.
  split; [|split; [|split; [|split; [|split; [|split; [|split; [|split; [|split;
    [|split]]]]]]]]].
  - intros Hty. unfold sortBlockParams. rewrite Hty.
    by rewrite bool_decide_eq_false_2, bool_decide_eq_true_2.
  - rewrite sortResourceParams_run. fold attrs keys blocks first rest.
    unfold resourceBody. rewrite Hdep. do 3 f_equal.
    destruct (bool_decide (is_Some (attrs !! "depends_on")));
      by rewrite <- ?app_assoc.
  - by apply NoDup_filter.
  - intros name. unfold first. rewrite list_elem_of_filter.
    unfold keys. rewrite range_order_lookup. unfold leading. tauto.
  - apply sort_Strings_sorted.
  - unfold rest. rewrite sort_Strings_perm. by apply NoDup_filter.
  - intros name. unfold rest. rewrite sort_Strings_perm, list_elem_of_filter.
    unfold keys. rewrite range_order_lookup. unfold ordinary, leading.
    unfold metaArgCount, metaArgForEach, metaArgDependsOn. tauto.
  - clear Hdep. repeat case_bool_decide; repeat constructor.
  - clear Hdep. case_bool_decide as Hf; [intros _|intros Hnil; by destruct Hnil].
    by apply endBy_not_nil, fmap_not_nil.
  - clear Hdep. case_bool_decide as Hc; [intros _|intros Hnil; by destruct Hnil].
    destruct Hc as [_ [Hr|Hf]].
    + right. by apply sepBy_not_nil, fmap_not_nil.
    + left. by apply endBy_not_nil, fmap_not_nil.
  - clear Hdep. case_bool_decide; [|intros Hnil; by destruct Hnil].
    case_bool_decide as Hd; [intros _|intros Hnil; by destruct Hnil].
    destruct Hd as [Hb|[Hr|Hf]].
    + right. right. by apply sepBy_not_nil, fmap_not_nil.
    + right. left. by apply sepBy_not_nil, fmap_not_nil.
    + left. by apply endBy_not_nil, fmap_not_nil.
Qed.

(** C3. A top-level data block goes through ProcessAndSortBlocks untouched
    and without a map iteration, although its attributes are not in the
    order of the style policy; the same body in a resource block is
    rebuilt. *)
Theorem data_block_left_unsorted :
  ProcessAndSortBlocks (H:=runtime_increasing)
    (MkFile (parsedBody [NodeBlock exampleData])) ∅ 0
  = Some (MkFile (parsedBody [NodeBlock exampleData]), 0) ∧
  sourceNames (Body_children (Block_Body exampleData))
  = ["name"; "for_each"; "depends_on"; "count"] ∧
  ProcessAndSortBlocks (H:=runtime_increasing)
    (MkFile (parsedBody [NodeBlock exampleResource])) ∅ 0
  = Some (MkFile (MkBody [NodeBlock (Block_setChildren exampleResource
       (let attrs := Body_Attributes (Block_Body exampleResource) in
        [NL; relocated attrs "count"; NL; relocated attrs "for_each"; NL; NL;
         relocated attrs "name"; NL; relocated attrs "depends_on"; NL]))] ∅), 1).
Proof. split; [|split]; vm_compute; reflexivity. Qed.

(** C4. ProcessAndSortBlocks hands a block of type terraform to
    sortRequiredProvidersInBlock, which keeps the children of the block
    where they are. Each child block of type required_providers, wherever it
    stands, gets as body a newline, its attributes in increasing byte-wise
    order of their names with one newline between two of them, and a
    newline; every other child is left as it was. *)
Theorem sortRequiredProvidersInBlock_sorts `{GoRuntime} (block : Block) (k : nat) :
  ∃ body' k',
    (Block_Type block = "terraform" →
     sortBlockParams block k = sortRequiredProvidersInBlock block k) ∧
    sortRequiredProvidersInBlock block k = Some (Block_setChildren block body', k') ∧
    Forall2 (λ n n',
      match n with
      | NodeBlock b =>
          if bool_decide (Block_Type b = "required_providers") then
            ∃ names,
              n' = NodeBlock (Block_setChildren b
                     ([NL]
                      ++ sepBy NL (relocated (Body_Attributes (Block_Body b)) <$> names)
                      ++ [NL])) ∧
              StronglySorted str_le names ∧ NoDup names ∧
              ∀ name, name ∈ names ↔ is_Some (Body_Attributes (Block_Body b) !! name)
          else n' = n
      | _ => n' = n
      end) (Body_children (Block_Body block)) body'.
Proof.
  destruct (sortRequiredProvidersInBlock_run block k) as [k' Hrun].
  exists (sortedProviders <$> Body_children (Block_Body block)), k'.
  split; [|split; [done|]].
  { intros Hty. unfold sortBlockParams. by rewrite bool_decide_eq_true_2. }
  apply Forall2_fmap_intro. intros [a|b|ts]; simpl; [done| |done].
  case_bool_decide; [|done].
  exists (sortedNames (Block_Body b)). split; [done|]. apply sortedNames_spec.
Qed.

(** C5 as stated fails: a second run of ProcessAndSortBlocks on the file the
    first run returned can give a different file. The resource block of
    [exampleFile] has both count and for_each; each run emits the two in the
    order in which its iteration over the attribute map visits them, and
    the runtime need not visit them in the same order twice. Here the first
    run emits count, for_each and the second for_each, count. (The locals
    block comes out of the second run as it came out of the first: its
    attributes are still items of its body.) *)
Lemma reorder_twice_differs :
  ∃ file1 file2,
    ProcessAndSortBlocks (H:=runtime_switching) exampleFile exampleAllowed 0
    = Some (file1, 2) ∧
    ProcessAndSortBlocks (H:=runtime_switching) file1 exampleAllowed 2
    = Some (file2, 4) ∧
    (let attrs := Body_Attributes (Block_Body exampleLocals) in
     let sorted :=
       Block_setChildren exampleLocals
         ([NL] ++ sepBy NL (relocated attrs <$> ["a"; "b"; "c"]) ++ [NL]) in
     Body_Blocks (File_Body file1) !! 1 = Some sorted ∧
     Body_Blocks (File_Body file2) !! 1 = Some sorted) ∧
    (let attrs := Body_Attributes (Block_Body exampleResource) in
     let rest := [NL; relocated attrs "name"; NL; relocated attrs "depends_on"; NL] in
     Body_Blocks (File_Body file1) !! 2
     = Some (Block_setChildren exampleResource
               ([NL] ++ endBy NL (relocated attrs <$> ["count"; "for_each"]) ++ rest)) ∧
     Body_Blocks (File_Body file2) !! 2
     = Some (Block_setChildren exampleResource
               ([NL] ++ endBy NL (relocated attrs <$> ["for_each"; "count"]) ++ rest))) ∧
    file2 ≠ file1.
Proof.
  eexists _, _.
  split; [vm_compute; reflexivity|].
  split; [vm_compute; reflexivity|].
  split; [split; vm_compute; reflexivity|].
  split; [split; vm_compute; reflexivity|].
  intros Heq. discriminate Heq.
Qed.

(** C5, amended. A second run of ProcessAndSortBlocks on the file the first
    run returned gives that file again, whenever no top-level resource
    block of the file has both count and for_each, and [sort.Slice] leaves
    a slice that is already in order as it is. The second condition is on
    the runtime, not on the file: [sort.Slice] is not stable, and the
    blocks with equal first labels are the ones it may arrange anew. The
    insertion sort meets it ([insertionSort_sorted_id]). *)
Theorem reorder_twice_same_file `{GoRuntime}
    (file : File) (allowedBlocks : gmap string bool) (k : nat) :
  Forall (λ b, Block_Type b = "resource" →
               ¬ (is_Some (Body_Attributes (Block_Body b) !! "count")
                  ∧ is_Some (Body_Attributes (Block_Body b) !! "for_each")))
    (Body_Blocks (File_Body file)) →
  (∀ items, StronglySorted (λ a b, lessName b a = false) items →
            sort_Slice lessName items = items) →
  ∃ file1 k1 k2,
    ProcessAndSortBlocks file allowedBlocks k = Some (file1, k1) ∧
    ProcessAndSortBlocks file1 allowedBlocks k1 = Some (file1, k2).
Proof.
  intros Hone Hkeep. destruct file as [[children items]].
  change (Forall (λ b, Block_Type b = "resource" → oneLeading (Block_Body b))
            (blocksOf children)) in Hone.
  destruct (sortBlocksInBody_canonical children k Hone) as [k1 Hk1].
  set (blocks1 := emitted allowedBlocks (blocksOf (canonicalNode <$> children))).
  assert (∀ b, b ∈ blocks1 → ∃ b0, b0 ∈ blocksOf children ∧ b = canonicalBlock b0)
    as Hblocks1.
  { intros b Hb. unfold blocks1 in Hb.
    rewrite emitted_perm, blocksOf_canonical in Hb.
    apply list_elem_of_fmap in Hb as (b0 & -> & Hb0). eauto. }
  assert (canonicalBlock <$> blocks1 = blocks1) as Hfixed.
  { etrans; [|apply list_fmap_id]. apply list_fmap_ext.
    intros _ b Hb%list_elem_of_lookup_2.
    apply Hblocks1 in Hb as (b0 & _ & ->). apply canonicalBlock_twice. }
  assert (Forall (λ b, Block_Type b = "resource" → oneLeading (Block_Body b))
            (blocksOf (sepBy NL (NodeBlock <$> blocks1)))) as Hone1.
  { rewrite blocksOf_sepBy. apply Forall_forall. intros b Hb.
    apply Hblocks1 in Hb as (b0 & Hb0 & ->).
    rewrite Forall_forall in Hone. specialize (Hone b0 Hb0).
    pose proof (canonicalBlock_header b0) as [= Hty _].
    unfold oneLeading, Body_Attributes in *.
    rewrite Hty, canonicalBlock_items. exact Hone. }
  destruct (sortBlocksInBody_canonical _ k1 Hone1) as [k2 Hk2].
  rewrite canonicalNode_sepBy, Hfixed in Hk2.
  exists (MkFile (MkBody (sepBy NL (NodeBlock <$> blocks1)) items)), k1, k2.
  split;
    [by rewrite (ProcessAndSortBlocks_run (MkFile (MkBody children items))
                   _ _ _ _ Hk1)|].
  rewrite (ProcessAndSortBlocks_run
             (MkFile (MkBody (sepBy NL (NodeBlock <$> blocks1)) items))
             _ _ _ _ Hk2).
  cbn [File_Body Body_items].
  fold (emitted allowedBlocks (blocksOf (sepBy NL (NodeBlock <$> blocks1)))).
  rewrite blocksOf_sepBy. unfold blocks1. by rewrite emitted_twice.
Qed.

Lemma reorder_twice_same_file_witness :
  ∃ file1 k1 k2,
    ProcessAndSortBlocks (H:=runtime_switching) exampleRepeated exampleKinds 0
    = Some (file1, k1) ∧
    ProcessAndSortBlocks (H:=runtime_switching) file1 exampleKinds k1
    = Some (file1, k2).
Proof.
  apply (reorder_twice_same_file (H:=runtime_switching) exampleRepeated exampleKinds 0).
  - repeat constructor; try (intros Hty; discriminate Hty).
    intros _ [_ Hforeach]. vm_compute in Hforeach. by destruct Hforeach.
  - intros items. apply insertionSort_sorted_id.
Defined.

(** C6. The token-trim step never fails; it returns a contiguous part [mid]
    of the token sequence, which is a run of newline tokens, then [mid],
    then a run of newline tokens. [mid] does not start and does not end
    with a newline token, so the two runs are the whole leading run and the
    whole trailing run; everything between them, newline, comment and
    content tokens alike, is returned as it was. *)
Theorem trimTokens_strips_newline_runs (tokens : Tokens) :
  ∃ lead mid trail,
    trimTokens tokens = Some mid ∧
    tokens = lead ++ mid ++ trail ∧
    Forall (λ t, Type_ t = hclsyntax.TokenNewline) lead ∧
    Forall (λ t, Type_ t = hclsyntax.TokenNewline) trail ∧
    (∀ t, head mid = Some t → Type_ t ≠ hclsyntax.TokenNewline) ∧
    (∀ t, last mid = Some t → Type_ t ≠ hclsyntax.TokenNewline).
Proof.
  destruct (trimTokens_split tokens)
    as (lead & mid & trail & Htrim & Hsplit & Hlead & Htrail & Hhead & Hlast).
  exists lead, mid, trail. unfold isNewline in *.
  repeat split; try done.
  - eapply Forall_impl; [exact Hlead|]. intros t. apply bool_decide_eq_true_1.
  - eapply Forall_impl; [exact Htrail|]. intros t. apply bool_decide_eq_true_1.
  - intros t Ht. eapply bool_decide_eq_false_1, Hhead, Ht.
  - intros t Ht. eapply bool_decide_eq_false_1, Hlast, Ht.
Qed.

(** C7 as stated fails: with a runtime whose map iteration goes up, count
    is emitted before for_each for a resource whose source has for_each
    before count. *)
Lemma leading_meta_args_not_in_source_order :
  sortResourceParams (H:=runtime_increasing) exampleResource 0
  = Some (Block_setChildren exampleResource
            (let attrs := Body_Attributes (Block_Body exampleResource) in
             [NL] ++ endBy NL (relocated attrs <$> ["count"; "for_each"])
             ++ [NL; relocated attrs "name"; NL; relocated attrs "depends_on"; NL]),
          1) ∧
  filter leading (sourceNames (Body_children (Block_Body exampleResource)))
  = ["for_each"; "count"].
Proof. split; vm_compute; reflexivity. Qed.

(** C7, amended. For a resource body with both count and for_each, the
    rebuilt body starts with a newline and then has the two, each followed
    by a newline, in the order in which the iteration over the attribute
    map visits them; they are not sorted relative to each other, and either
    order can occur. *)
Theorem leading_meta_args_in_iteration_order `{GoRuntime} (block : Block) (k : nat) :
  let attrs := Body_Attributes (Block_Body block) in
  is_Some (attrs !! "count") → is_Some (attrs !! "for_each") →
  ∃ first rest,
    sortResourceParams block k
    = Some (Block_setChildren block
              ([NL] ++ endBy NL (relocated attrs <$> first) ++ rest), S k) ∧
    first = filter (λ name, name = "count" ∨ name = "for_each") (range_order k attrs) ∧
    (first = ["count"; "for_each"] ∨ first = ["for_each"; "count"]).
Proof.
  intros attrs Hcount Hforeach.
  eexists (filter leading (range_order k attrs)), _.
  split; [|split; [done|]].
  - rewrite sortResourceParams_run. unfold resourceBody. reflexivity.
  - apply NoDup_two_elements; [done| |].
    + apply NoDup_filter. rewrite range_order_perm. apply NoDup_fst_map_to_list.
    + intros name. rewrite list_elem_of_filter, range_order_lookup.
      unfold leading, metaArgCount, metaArgForEach.
      split; [tauto|]. intros [->| ->]; auto.
Qed.

Lemma leading_meta_args_in_iteration_order_witness :
  is_Some (Body_Attributes (Block_Body exampleResource) !! "count") ∧
  is_Some (Body_Attributes (Block_Body exampleResource) !! "for_each") ∧
  ∃ first rest,
    sortResourceParams (H:=runtime_decreasing) exampleResource 0
    = Some (Block_setChildren exampleResource
              ([NL] ++ endBy NL
                 (relocated (Body_Attributes (Block_Body exampleResource)) <$> first)
               ++ rest), 1) ∧
    first = filter (λ name, name = "count" ∨ name = "for_each")
              (range_decreasing 0 (Body_Attributes (Block_Body exampleResource))) ∧
    (first = ["count"; "for_each"] ∨ first = ["for_each"; "count"]).
Proof.
  assert (is_Some (Body_Attributes (Block_Body exampleResource) !! "count")) as Hc
    by (vm_compute; eauto).
  assert (is_Some (Body_Attributes (Block_Body exampleResource) !! "for_each")) as Hf
    by (vm_compute; eauto).
  split; [exact Hc|]. split; [exact Hf|].
  exact (leading_meta_args_in_iteration_order (H:=runtime_decreasing)
           exampleResource 0 Hc Hf).
Defined.

(** C8. Each sorter relocates the tokens of an attribute without altering
    them: for every attribute of the body it rebuilds, the result of the
    token-trim step on the tokens of the attribute is a node of the rebuilt
    body. sortResourceParams also keeps every nested block as it was, and
    the top-level pass emits the top-level blocks whole. *)
Theorem sorters_preserve_attribute_tokens `{GoRuntime}
    (block : Block) (file : File) (allowedBlocks : gmap string bool) (k : nat) :
  (∃ block' k',
     sortLocalsBlock block k = Some (block', k') ∧
     ∀ name a, Body_Attributes (Block_Body block) !! name = Some a →
       ∃ mid, trimTokens (Attribute_BuildTokens a) = Some mid ∧
              NodeTokens mid ∈ Body_children (Block_Body block')) ∧
  (∃ block' k',
     sortResourceParams block k = Some (block', k') ∧
     (∀ name a, Body_Attributes (Block_Body block) !! name = Some a →
        ∃ mid, trimTokens (Attribute_BuildTokens a) = Some mid ∧
               NodeTokens mid ∈ Body_children (Block_Body block')) ∧
     (∀ b, NodeBlock b ∈ Body_children (Block_Body block) →
           NodeBlock b ∈ Body_children (Block_Body block'))) ∧
  (∃ block' k',
     sortRequiredProvidersInBlock block k = Some (block', k') ∧
     ∀ b name a,
       NodeBlock b ∈ Body_children (Block_Body block) →
       Block_Type b = "required_providers" →
       Body_Attributes (Block_Body b) !! name = Some a →
       ∃ rebuilt mid,
         NodeBlock (Block_setChildren b rebuilt) ∈ Body_children (Block_Body block') ∧
         trimTokens (Attribute_BuildTokens a) = Some mid ∧
         NodeTokens mid ∈ rebuilt) ∧
  (∃ body1 k1 file',
     sortBlocksInBody (Body_children (File_Body file)) k = Some (body1, k1) ∧
     ProcessAndSortBlocks file allowedBlocks k = Some (file', k1) ∧
     Body_Blocks (File_Body file') ≡ₚ blocksOf body1).
Proof.
  split; [|split; [|split]].
  - eexists _, _. split; [apply sortLocalsBlock_run|].
    intros name a Ha. exists (trim (Attribute_BuildTokens a)).
    split; [apply trimTokens_trim|]. simpl.
    rewrite <- (relocated_lookup _ _ _ Ha). by apply sortedBody_contains.
  - eexists _, _. split; [apply sortResourceParams_run|]. split.
    + intros name a Ha. exists (trim (Attribute_BuildTokens a)).
      split; [apply trimTokens_trim|]. simpl.
      rewrite <- (relocated_lookup _ _ _ Ha).
      by apply resourceBody_contains, range_order_lookup.
    + intros b Hb. simpl. by apply resourceBody_contains_block, elem_of_blocksOf.
  - destruct (sortRequiredProvidersInBlock_run block k) as [k' Hrun].
    eexists _, _. split; [exact Hrun|].
    intros b name a Hb Hty Ha.
    exists (sortedBody (Block_Body b)), (trim (Attribute_BuildTokens a)).
    split; [|split; [apply trimTokens_trim|]].
    + simpl. apply list_elem_of_fmap. exists (NodeBlock b). split; [|done].
      simpl. by rewrite bool_decide_eq_true_2.
    + rewrite <- (relocated_lookup _ _ _ Ha). by apply sortedBody_contains.
  - destruct (sortBlocksInBody_run (Body_children (File_Body file)) k)
      as (body1 & k1 & Hrun & _).
    eexists body1, k1, _. split; [done|].
    split; [by apply ProcessAndSortBlocks_run|].
    simpl. rewrite Body_Blocks_MkBody, blocksOf_sepBy, sortedBlocks_perm.
    rewrite Permutation_app_comm. apply filter_app_complement.
Qed.

(** C9. ParseHCLContent returns an error exactly when the diagnostics of
    the parser have an error among them; the error text holds the file name
    and the text of the diagnostics, and the error wraps the diagnostics;
    no file comes with it. Otherwise the file of the parser is returned as
    it is. On any file, ProcessAndSortBlocks and each of the three sorters
    return a result: they never panic. FormatHCLBytes adds nothing of its
    own to the library's formatter. *)
Theorem parsing_is_the_only_failure `{GoRuntime}
    (ParseConfig : list Byte.byte → string → hcl.Pos → option File * hcl.Diagnostics)
    (Diagnostics_Error : hcl.Diagnostics → string)
    (src : list Byte.byte) (filename : string)
    (file : File) (allowedBlocks : gmap string bool) (block : Block) (k : nat) :
  let parsed := ParseConfig src filename (hcl.MkPos 1 1 0) in
  let result := ParseHCLContent ParseConfig Diagnostics_Error src filename in
  (is_Some result.2 ↔ hcl.HasErrors parsed.2 = true) ∧
  (∀ e, result.2 = Some e →
     result.1 = None ∧
     Error e = "error parsing HCL content from '" +:+ filename +:+ "': "
                 +:+ Diagnostics_Error parsed.2 ∧
     Unwrap e = parsed.2) ∧
  (result.2 = None → result.1 = parsed.1) ∧
  (∃ file' k', ProcessAndSortBlocks file allowedBlocks k = Some (file', k')) ∧
  (∃ block' k', sortRequiredProvidersInBlock block k = Some (block', k')) ∧
  (∃ block' k', sortResourceParams block k = Some (block', k')) ∧
  (∃ block' k', sortLocalsBlock block k = Some (block', k')) ∧
  ProcessAndSortBlocks (MkFile (parsedBody [])) allowedBlocks k
  = Some (MkFile (parsedBody []), k) ∧
  (∀ File_Bytes Format file',
     FormatHCLBytes File_Bytes Format file' = Format (File_Bytes file')).
Proof.
  intros parsed result. unfold result, ParseHCLContent. fold parsed.
  destruct parsed as [parsedFile diags]. simpl.
  split; [|split; [|split; [|split; [|split; [|split; [|split; [|split]]]]]]];
    [| | | | | | | |done].
  - destruct (hcl.HasErrors diags); simpl; split; (done || eauto).
  - intros e. destruct (hcl.HasErrors diags); simpl; [|done]. by intros [= <-].
  - by destruct (hcl.HasErrors diags).
  - destruct (sortBlocksInBody_run (Body_children (File_Body file)) k)
      as (body1 & k1 & Hrun & _).
    eexists _, _. by apply ProcessAndSortBlocks_run.
  - destruct (sortRequiredProvidersInBlock_run block k) as [k' Hrun]. eauto.
  - eexists _, _. apply sortResourceParams_run.
  - eexists _, _. apply sortLocalsBlock_run.
  - erewrite ProcessAndSortBlocks_run by reflexivity. simpl.
    by rewrite sortedBlocks_nil.
Qed.

(** C10. After sortRequiredProvidersInBlock, the children of the body of
    each child block of type required_providers are newline nodes and the
    trimmed tokens of the attributes of the body, all of them: the body has
    no nested block and no attribute node, comment or other child any more,
    whatever it held before. The other children of the block are
    unchanged. *)
Theorem required_providers_body_rebuilt `{GoRuntime} (block : Block) (k : nat) :
  ∃ body' k',
    sortRequiredProvidersInBlock block k = Some (Block_setChildren block body', k') ∧
    Forall2 (λ n n',
      match n with
      | NodeBlock b =>
          if bool_decide (Block_Type b = "required_providers") then
            ∃ rebuilt,
              n' = NodeBlock (Block_setChildren b rebuilt) ∧
              Body_Blocks (Block_Body (Block_setChildren b rebuilt)) = [] ∧
              Forall (λ m, m = NL ∨
                           ∃ name a,
                             Body_Attributes (Block_Body b) !! name = Some a ∧
                             m = NodeTokens (trim (Attribute_BuildTokens a)))
                rebuilt ∧
              (∀ name a, Body_Attributes (Block_Body b) !! name = Some a →
                         NodeTokens (trim (Attribute_BuildTokens a)) ∈ rebuilt)
          else n' = n
      | _ => n' = n
      end) (Body_children (Block_Body block)) body'.
Proof.
  destruct (sortRequiredProvidersInBlock_run block k) as [k' Hrun].
  exists (sortedProviders <$> Body_children (Block_Body block)), k'. split; [done|].
  apply Forall2_fmap_intro. intros [a|b|ts]; simpl; [done| |done].
  case_bool_decide; [|done].
  pose proof (sortedBody_nodes (Block_Body b)) as Hnodes.
  assert (Forall (λ n, ∃ ts, n = NodeTokens ts) (sortedBody (Block_Body b))) as Htok.
  { eapply Forall_impl; [exact Hnodes|]. intros n [->|(? & ? & _ & ->)]; eauto. }
  exists (sortedBody (Block_Body b)).
  split; [done|]. split; [by apply tokens_only_Blocks|]. split; [done|].
  intros name a Ha. rewrite <- (relocated_lookup _ _ _ Ha).
  by apply sortedBody_contains.
Qed.

(** * Further properties *)

(** ** The token-trim step, again *)

Lemma trimTokens_trimmed (tokens : Tokens) :
  (∀ t, head tokens = Some t → isNewline t = false) →
  (∀ t, last tokens = Some t → isNewline t = false) →
  trimTokens tokens = Some tokens.
Proof.
  intros Hhead Hlast.
  destruct (trimTokens_split tokens)
    as (lead & mid & trail & Htrim & Hsplit & Hlead & Htrail & _).
  destruct lead as [|t lead].
  - destruct trail as [|t trail _] using rev_ind.
    + rewrite Htrim. f_equal. by rewrite Hsplit, app_nil_r.
    + apply Forall_app in Htrail as [_ Ht]. apply Forall_inv in Ht.
      assert (isNewline t = false) as Hno; [|simpl in Ht; congruence].
      apply Hlast. by rewrite Hsplit, !app_assoc, last_snoc.
  - apply Forall_cons in Hlead as [Ht _].
    assert (isNewline t = false) as Hno; [|simpl in Ht; congruence].
    apply Hhead. by rewrite Hsplit.
Qed.

(** X1. Trimming twice is trimming once: the token-trim step returns its
    own result unchanged. *)
Theorem trimTokens_idempotent (tokens : Tokens) :
  ∃ mid, trimTokens tokens = Some mid ∧ trimTokens mid = Some mid.
Proof.
  destruct (trimTokens_split tokens)
    as (lead & mid & trail & Htrim & _ & _ & _ & Hhead & Hlast).
  exists mid. split; [done|]. by apply trimTokens_trimmed.
Qed.

(** X2. The token-trim step returns no token exactly when every token is a
    newline token (the empty sequence included). *)
Theorem trimTokens_empty_iff (tokens : Tokens) :
  trimTokens tokens = Some []
  ↔ Forall (λ t, Type_ t = hclsyntax.TokenNewline) tokens.
Proof.
  destruct (trimTokens_split tokens)
    as (lead & mid & trail & Htrim & Hsplit & Hlead & Htrail & Hhead & _).
  assert (∀ l, Forall (λ t, isNewline t = true) l
               ↔ Forall (λ t, Type_ t = hclsyntax.TokenNewline) l) as Hnl.
  { intros l. apply Forall_proper; [|done]. intros t. apply bool_decide_eq_true. }
  rewrite <- Hnl. split.
  - rewrite Htrim. intros [= ->]. rewrite Hsplit. by apply Forall_app.
  - intros Hall. rewrite Htrim. f_equal. destruct mid as [|t mid]; [done|].
    rewrite Hsplit, !Forall_app, Forall_cons in Hall.
    destruct Hall as (_ & [Ht _] & _).
    assert (isNewline t = false) as Hno by by apply Hhead.
    simpl in Ht. congruence.
Qed.

(** X3. A token sequence that neither starts nor ends with a newline token
    goes through the token-trim step unchanged, whatever newline tokens it
    has inside. *)
Theorem trimTokens_keeps_trimmed (tokens : Tokens) :
  (∀ t, head tokens = Some t → Type_ t ≠ hclsyntax.TokenNewline) →
  (∀ t, last tokens = Some t → Type_ t ≠ hclsyntax.TokenNewline) →
  trimTokens tokens = Some tokens.
Proof.
  intros Hhead Hlast. apply trimTokens_trimmed; intros t Ht;
    apply bool_decide_eq_false_2; auto.
Qed.

Lemma trimTokens_keeps_trimmed_witness :
  trimTokens [MkToken hclsyntax.TokenIdent "a" 0; newline;
              MkToken hclsyntax.TokenNumberLit "1" 0]
  = Some [MkToken hclsyntax.TokenIdent "a" 0; newline;
          MkToken hclsyntax.TokenNumberLit "1" 0].
Proof.
  apply trimTokens_keeps_trimmed; intros t [= <-]; vm_compute; discriminate.
Defined.

(** ** The attribute map and the order of the source *)

Lemma foldl_attributes (children : list Node) : ∀ m : gmap string Attribute,
  foldl (λ ret n,
    match n with
    | NodeAttribute a => <[Attribute_name a := a]> ret
    | _ => ret
    end) m children
  = foldr (λ p acc, <[p.1 := p.2]> acc) m (reverse (attributePairs children)).
Proof.
  induction children as [|n body IH]; intros m; [done|].
  destruct n as [a|b|ts]; cbn [foldl]; rewrite IH; [|done..].
  change (attributePairs (NodeAttribute a :: body))
    with ((Attribute_name a, a) :: attributePairs body).
  by rewrite reverse_cons, foldr_snoc.
Qed.

Lemma attributesOf_list_to_map (children : list Node) :
  attributesOf children = list_to_map (reverse (attributePairs children)).
Proof. apply foldl_attributes. Qed.

Lemma sourceNames_pairs (children : list Node) :
  sourceNames children = (attributePairs children).*1.
Proof.
  induction children as [|[a|b|ts] body IH]; [done| |done..].
  change (sourceNames (NodeAttribute a :: body))
    with (Attribute_name a :: sourceNames body).
  by rewrite IH.
Qed.

(** With distinct attribute names, the attribute map of a parsed body does
    not depend on the order of its children. *)
Lemma attributesOf_perm (children1 children2 : list Node) :
  children1 ≡ₚ children2 → NoDup (sourceNames children1) →
  attributesOf children1 = attributesOf children2.
Proof.
  intros Hperm Hnodup. rewrite !attributesOf_list_to_map.
  apply list_to_map_proper.
  - rewrite fmap_reverse, reverse_Permutation, <- sourceNames_pairs. done.
  - rewrite !reverse_Permutation. unfold attributePairs. by rewrite Hperm.
Qed.

(** ** The locals sorter *)

(** X4. sortLocalsBlock, which ProcessAndSortBlocks calls on a block of
    type locals, replaces the body of the block by a newline, the
    attributes in increasing byte-wise order of their names with one
    newline between two of them, and a newline. Nested blocks, comments and
    any other children of the old body are not in the new one; type and
    labels stay. *)
Theorem sortLocalsBlock_layout `{GoRuntime} (block : Block) (k : nat) :
  let attrs := Body_Attributes (Block_Body block) in
  ∃ names,
    (Block_Type block = "locals" →
     sortBlockParams block k = sortLocalsBlock block k) ∧
    let rebuilt :=
      MkBody ([NL] ++ sepBy NL (relocated attrs <$> names) ++ [NL])
        (Body_items (Block_Body block)) in
    sortLocalsBlock block k
    = Some (MkBlock (Block_Type block) (Block_Labels block) rebuilt, S k) ∧
    StronglySorted str_le names ∧ NoDup names ∧
    (∀ name, name ∈ names ↔ is_Some (attrs !! name)) ∧
    Body_Blocks rebuilt = [].
Proof.
  intros attrs. exists (sortedNames (Block_Body block)).
  split; [|split; [apply sortLocalsBlock_run|]].
  { intros Hty. unfold sortBlockParams. rewrite Hty.
    rewrite (bool_decide_eq_false_2 ("locals" = "terraform")) by done.
    rewrite (bool_decide_eq_false_2 ("locals" = "resource")) by done.
    by rewrite bool_decide_eq_true_2. }
  destruct (sortedNames_spec (Block_Body block)) as (Hsorted & Hnodup & Hin).
  split; [done|]. split; [done|]. split; [done|].
  apply tokens_only_Blocks.
  eapply Forall_impl; [apply sortedBody_nodes|].
  intros n [->|(? & ? & _ & ->)]; eauto.
Qed.

(** X5. The result of sortLocalsBlock depends neither on the order in which
    the map iteration visits the attributes nor on the order of the
    children of the body in the source, as long as the attribute names are
    distinct: two bodies with the same children in any order give the same
    block. *)
Theorem sortLocalsBlock_canonical (R1 R2 : GoRuntime)
    (type : string) (labels : list string) (body1 body2 : list Node)
    (k1 k2 : nat) :
  body1 ≡ₚ body2 → NoDup (sourceNames body1) →
  fst <$> sortLocalsBlock (H:=R1) (MkBlock type labels (parsedBody body1)) k1
  = fst <$> sortLocalsBlock (H:=R2) (MkBlock type labels (parsedBody body2)) k2.
Proof.
  intros Hperm Hnodup. rewrite !sortLocalsBlock_run. simpl.
  unfold Block_setChildren, sortedBody, sortedNames, parsedBody. simpl.
  by rewrite (attributesOf_perm body1 body2).
Qed.

Lemma sortLocalsBlock_canonical_witness :
  fst <$> sortLocalsBlock (H:=runtime_increasing)
            (MkBlock "locals" [] (parsedBody exampleLocalsBody1)) 0
  = fst <$> sortLocalsBlock (H:=runtime_decreasing)
              (MkBlock "locals" [] (parsedBody exampleLocalsBody2)) 5.
Proof.
  apply sortLocalsBlock_canonical.
  - symmetry. exact (reverse_Permutation exampleLocalsBody1).
  - by apply (bool_decide_unpack _).
Defined.

(** ** The resource parameter sorter, again *)

(** X6. sortResourceParams keeps the nested blocks of the body: the blocks
    of the rebuilt body are those of the old one, whole and in the same
    order (a lifecycle block stays where it was among them), and the block
    keeps its type and labels. *)
Theorem sortResourceParams_keeps_blocks `{GoRuntime} (block : Block) (k : nat) :
  ∃ body',
    sortResourceParams block k
    = Some (MkBlock (Block_Type block) (Block_Labels block) body', S k) ∧
    Body_Blocks body' = Body_Blocks (Block_Body block).
Proof.
  eexists. split; [apply sortResourceParams_run|].
  apply blocksOf_resourceBody.
Qed.

(** X7. When the body has at most one of count and for_each, the result of
    sortResourceParams does not depend on the order in which the map
    iteration visits the attributes. *)
Theorem sortResourceParams_deterministic (R1 R2 : GoRuntime)
    (block : Block) (k1 k2 : nat) :
  ¬ (is_Some (Body_Attributes (Block_Body block) !! "count")
     ∧ is_Some (Body_Attributes (Block_Body block) !! "for_each")) →
  fst <$> sortResourceParams (H:=R1) block k1
  = fst <$> sortResourceParams (H:=R2) block k2.
Proof.
  intros Hone. by rewrite !sortResourceParams_sortedParams.
Qed.

Lemma sortResourceParams_deterministic_witness :
  fst <$> sortResourceParams (H:=runtime_increasing) exampleCounted 0
  = fst <$> sortResourceParams (H:=runtime_decreasing) exampleCounted 7.
Proof.
  apply sortResourceParams_deterministic.
  intros [_ Hforeach]. vm_compute in Hforeach. by destruct Hforeach.
Defined.

(** ** The required_providers sorter, again *)

(** X8. The result of sortRequiredProvidersInBlock does not depend on the
    order in which the map iterations visit the attributes. *)
Theorem sortRequiredProvidersInBlock_deterministic (R1 R2 : GoRuntime)
    (block : Block) (k1 k2 : nat) :
  fst <$> sortRequiredProvidersInBlock (H:=R1) block k1
  = fst <$> sortRequiredProvidersInBlock (H:=R2) block k2.
Proof.
  destruct (sortRequiredProvidersInBlock_run (H:=R1) block k1) as [k1' ->].
  destruct (sortRequiredProvidersInBlock_run (H:=R2) block k2) as [k2' ->].
  done.
Qed.

Lemma sortRequiredProvidersInBody_none `{GoRuntime} (children : list Node) : ∀ k,
  Forall (λ b, Block_Type b ≠ "required_providers") (blocksOf children) →
  sortRequiredProvidersInBody children k = Some (children, k).
Proof.
  induction children as [|n body IH]; intros k Hnone; [done|].
  destruct n as [a|b|ts]; cbn [sortRequiredProvidersInBody].
  - by erewrite Go_bind_run by by apply IH.
  - change (blocksOf (NodeBlock b :: body)) with (b :: blocksOf body) in Hnone.
    apply Forall_cons in Hnone as [Hb Hnone].
    rewrite bool_decide_eq_true_2 by done.
    erewrite Go_bind_run by reflexivity.
    by erewrite Go_bind_run by by apply IH.
  - by erewrite Go_bind_run by by apply IH.
Qed.

(** X9. A block none of whose child blocks has type required_providers
    comes out of sortRequiredProvidersInBlock as it went in, attributes,
    comments and child blocks included, and no map iteration is made. *)
Theorem sortRequiredProvidersInBlock_without_providers `{GoRuntime}
    (block : Block) (k : nat) :
  Forall (λ b, Block_Type b ≠ "required_providers")
    (Body_Blocks (Block_Body block)) →
  sortRequiredProvidersInBlock block k = Some (block, k).
Proof.
  intros Hnone. unfold sortRequiredProvidersInBlock.
  erewrite Go_bind_run by by apply sortRequiredProvidersInBody_none.
  by destruct block as [ty labels [children items]].
Qed.

Lemma sortRequiredProvidersInBlock_without_providers_witness :
  sortRequiredProvidersInBlock (H:=runtime_decreasing) exampleTerraform 3
  = Some (exampleTerraform, 3).
Proof.
  apply sortRequiredProvidersInBlock_without_providers.
  repeat constructor. intros Hty. discriminate Hty.
Defined.

(** ** The top-level sorter, again *)

Lemma sepBy_blocks_nodes (blocks : list Block) :
  Forall (λ n, n = NL ∨ ∃ b, n = NodeBlock b) (sepBy NL (NodeBlock <$> blocks)).
Proof.
  apply Forall_forall. intros n Hn.
  apply sepBy_elem_of_inv in Hn as [->|Hn]; [by left|].
  apply list_elem_of_fmap in Hn as (b & -> & _). right. by exists b.
Qed.

(** X10. Whatever the top-level body held, the body ProcessAndSortBlocks
    returns consists of blocks and newline nodes only: attributes and
    comments that stood at the top level between the blocks are not
    carried over. *)
Theorem ProcessAndSortBlocks_only_blocks `{GoRuntime}
    (file : File) (allowedBlocks : gmap string bool) (k : nat) :
  ∃ file' k',
    ProcessAndSortBlocks file allowedBlocks k = Some (file', k') ∧
    Forall (λ n, n = NL ∨ ∃ b, n = NodeBlock b) (Body_children (File_Body file')) ∧
    (∀ a, NodeAttribute a ∉ Body_children (File_Body file')) ∧
    (∀ ts, NodeTokens ts ∈ Body_children (File_Body file') → ts = [newline]).
Proof.
  destruct (sortBlocksInBody_run (Body_children (File_Body file)) k)
    as (body1 & k1 & Hrun & _).
  eexists _, _. split; [by apply ProcessAndSortBlocks_run|]. simpl.
  pose proof (sepBy_blocks_nodes
    (filter (λ b, ¬ sortable allowedBlocks b) (blocksOf body1)
     ++ sortedBlocks allowedBlocks (blocksOf body1))) as Hnodes.
  split; [done|]. rewrite Forall_forall in Hnodes. split.
  - intros a Ha. by destruct (Hnodes _ Ha) as [?|[? ?]].
  - intros ts Hts. destruct (Hnodes _ Hts) as [Heq|[? ?]]; [|done].
    by injection Heq.
Qed.

(** X11. ProcessAndSortBlocks neither drops nor duplicates nor renames a
    top-level block: the types and labels of the blocks it returns are those
    of the blocks it was given, in some order. *)
Theorem ProcessAndSortBlocks_keeps_headers `{GoRuntime}
    (file : File) (allowedBlocks : gmap string bool) (k : nat) :
  ∃ file' k',
    ProcessAndSortBlocks file allowedBlocks k = Some (file', k') ∧
    (λ b, (Block_Type b, Block_Labels b)) <$> Body_Blocks (File_Body file')
    ≡ₚ (λ b, (Block_Type b, Block_Labels b)) <$> Body_Blocks (File_Body file).
Proof.
  destruct (sortBlocksInBody_run (Body_children (File_Body file)) k)
    as (body1 & k1 & Hrun & Hhd).
  eexists _, _. split; [by apply ProcessAndSortBlocks_run|]. simpl.
  fold header in *. rewrite Body_Blocks_MkBody, blocksOf_sepBy.
  change (Body_Blocks (File_Body file)) with (blocksOf (Body_children (File_Body file))).
  rewrite <- Hhd.
  apply fmap_Permutation.
  rewrite sortedBlocks_perm, Permutation_app_comm. apply filter_app_complement.
Qed.

Lemma sortBlocksInBody_none `{GoRuntime} (children : list Node) : ∀ k,
  Forall (λ b, Block_Type b ≠ "terraform" ∧ Block_Type b ≠ "resource"
               ∧ Block_Type b ≠ "locals") (blocksOf children) →
  sortBlocksInBody children k = Some (children, k).
Proof.
  induction children as [|n body IH]; intros k Hnone; [done|].
  destruct n as [a|b|ts]; cbn [sortBlocksInBody].
  - by erewrite Go_bind_run by by apply IH.
  - change (blocksOf (NodeBlock b :: body)) with (b :: blocksOf body) in Hnone.
    apply Forall_cons in Hnone as [(Ht & Hr & Hl) Hnone].
    unfold sortBlockParams. rewrite !bool_decide_eq_false_2 by done.
    erewrite Go_bind_run by reflexivity.
    by erewrite Go_bind_run by by apply IH.
  - by erewrite Go_bind_run by by apply IH.
Qed.

(** X12. On a file with no terraform, resource or locals block, and with an
    allow-set that makes no block sortable, ProcessAndSortBlocks makes no
    map iteration and returns the blocks of the file, unchanged and in their
    order, with one newline node between two of them. *)
Theorem ProcessAndSortBlocks_no_op `{GoRuntime}
    (file : File) (allowedBlocks : gmap string bool) (k : nat) :
  Forall (λ b, Block_Type b ≠ "terraform" ∧ Block_Type b ≠ "resource"
               ∧ Block_Type b ≠ "locals") (Body_Blocks (File_Body file)) →
  Forall (λ b, allowed allowedBlocks (Block_Type b) = false ∨ Block_Labels b = [])
    (Body_Blocks (File_Body file)) →
  ProcessAndSortBlocks file allowedBlocks k
  = Some (MkFile (MkBody (sepBy NL (NodeBlock <$> Body_Blocks (File_Body file)))
                    (Body_items (File_Body file))), k).
Proof.
  intros Hkinds Hother.
  erewrite ProcessAndSortBlocks_run by by apply sortBlocksInBody_none.
  change (blocksOf (Body_children (File_Body file)))
    with (Body_Blocks (File_Body file)).
  assert (Forall (λ b, ¬ sortable allowedBlocks b) (Body_Blocks (File_Body file)))
    as Hnot.
  { eapply Forall_impl; [exact Hother|]. intros b [Hb|Hb] [Hallowed Hlabels].
    - congruence.
    - rewrite Hb in Hlabels. simpl in Hlabels. lia. }
  assert (sortedBlocks allowedBlocks (Body_Blocks (File_Body file)) = []) as ->.
  { apply Permutation_nil_r. rewrite sortedBlocks_perm.
    by rewrite (filter_none (sortable allowedBlocks)). }
  by rewrite (filter_all _ _ Hnot), app_nil_r.
Qed.

Lemma ProcessAndSortBlocks_no_op_witness :
  ProcessAndSortBlocks (H:=runtime_increasing) examplePlain ∅ 0
  = Some (MkFile (MkBody
            (sepBy NL (NodeBlock <$> Body_Blocks (File_Body examplePlain)))
            (Body_items (File_Body examplePlain))), 0).
Proof.
  apply ProcessAndSortBlocks_no_op.
  - repeat constructor; intros Hty; discriminate Hty.
  - repeat constructor; by left.
Defined.

(** With distinct sort keys, every [sort.Slice] arranges the sortable
    blocks in the same way. *)
Lemma sortedBlocks_runtime (R1 R2 : GoRuntime) allowedBlocks (blocks : list Block) :
  NoDup (firstLabel <$> filter (sortable allowedBlocks) blocks) →
  sortedBlocks (H:=R1) allowedBlocks blocks
  = sortedBlocks (H:=R2) allowedBlocks blocks.
Proof.
  intros Hnodup.
  apply (StronglySorted_unique_strong
           (λ a b, str_le (firstLabel a) (firstLabel b))).
  - intros x1 x2 Hx1 Hx2 H12 H21.
    rewrite (sortedBlocks_perm (H:=R1)) in Hx1.
    rewrite (sortedBlocks_perm (H:=R2)) in Hx2.
    eapply NoDup_fmap_inj_on; [exact Hnodup|done|done|].
    by apply (anti_symm str_le).
  - apply sortedBlocks_sorted.
  - apply sortedBlocks_sorted.
  - by rewrite (sortedBlocks_perm (H:=R1)), (sortedBlocks_perm (H:=R2)).
Qed.

(** X13. The file ProcessAndSortBlocks returns does not depend on the
    choices of the Go runtime (the order of map iterations, the arrangement
    of equal keys by sort.Slice) when no top-level resource has both count
    and for_each and the sortable blocks have distinct first labels. *)
Theorem ProcessAndSortBlocks_deterministic (R1 R2 : GoRuntime)
    (file : File) (allowedBlocks : gmap string bool) (k1 k2 : nat) :
  Forall (λ b, Block_Type b = "resource" →
               ¬ (is_Some (Body_Attributes (Block_Body b) !! "count")
                  ∧ is_Some (Body_Attributes (Block_Body b) !! "for_each")))
    (Body_Blocks (File_Body file)) →
  NoDup (firstLabel <$>
           filter (λ b, allowed allowedBlocks (Block_Type b) = true
                        ∧ 0 < length (Block_Labels b))
             (Body_Blocks (File_Body file))) →
  fst <$> ProcessAndSortBlocks (H:=R1) file allowedBlocks k1
  = fst <$> ProcessAndSortBlocks (H:=R2) file allowedBlocks k2.
Proof.
  intros Hone Hnodup.
  destruct (sortBlocksInBody_canonical (H:=R1) (Body_children (File_Body file))
              k1 Hone) as [k1' Hk1].
  destruct (sortBlocksInBody_canonical (H:=R2) (Body_children (File_Body file))
              k2 Hone) as [k2' Hk2].
  rewrite (ProcessAndSortBlocks_run (H:=R1) _ _ _ _ _ Hk1).
  rewrite (ProcessAndSortBlocks_run (H:=R2) _ _ _ _ _ Hk2).
  simpl. rewrite (sortedBlocks_runtime R1 R2); [done|].
  change (NoDup (firstLabel <$>
            filter (sortable allowedBlocks) (Body_Blocks (File_Body file)))) in Hnodup.
  rewrite firstLabel_header, header_filter_sortable in Hnodup.
  by rewrite firstLabel_header, header_filter_sortable, header_canonical.
Qed.

Lemma ProcessAndSortBlocks_deterministic_witness :
  fst <$> ProcessAndSortBlocks (H:=runtime_increasing) exampleMixed exampleAllowed 0
  = fst <$> ProcessAndSortBlocks (H:=runtime_switching) exampleMixed exampleAllowed 1.
Proof.
  apply ProcessAndSortBlocks_deterministic.
  - repeat constructor; try (intros Hty; discriminate Hty).
    intros _ [_ Hforeach]. vm_compute in Hforeach. by destruct Hforeach.
  - by apply (bool_decide_unpack _).
Defined.

(** ** Parsing, again *)

Lemma HasErrors_false (diags : hcl.Diagnostics) :
  Forall (λ d, hcl.Severity d ≠ hcl.DiagError) diags → hcl.HasErrors diags = false.
Proof.
  induction 1 as [|d diags Hd _ IH]; [done|]. simpl.
  by rewrite bool_decide_eq_false_2.
Qed.

(** X14. When no diagnostic of the parser is an error, ParseHCLContent
    returns the file of the parser and no error: warnings do not stop the
    pipeline and are not passed on to the caller. *)
Theorem ParseHCLContent_ignores_warnings
    (ParseConfig : list Byte.byte → string → hcl.Pos → option File * hcl.Diagnostics)
    (Diagnostics_Error : hcl.Diagnostics → string)
    (src : list Byte.byte) (filename : string) :
  Forall (λ d, hcl.Severity d ≠ hcl.DiagError)
    (ParseConfig src filename (hcl.MkPos 1 1 0)).2 →
  ParseHCLContent ParseConfig Diagnostics_Error src filename
  = ((ParseConfig src filename (hcl.MkPos 1 1 0)).1, None).
Proof.
  intros Hwarn. unfold ParseHCLContent.
  destruct (ParseConfig src filename (hcl.MkPos 1 1 0)) as [file diags].
  by rewrite (HasErrors_false diags Hwarn).
Qed.

Lemma ParseHCLContent_ignores_warnings_witness :
  ParseHCLContent exampleParser (λ _, "") [] "main.tf"
  = (Some examplePlain, None).
Proof.
  apply (ParseHCLContent_ignores_warnings exampleParser (λ _, "") [] "main.tf").
  repeat constructor. intros Hsev. discriminate Hsev.
Defined.

(** ** Bodies without attributes *)


Lemma range_order_empty `{GoRuntime} k : range_order k ∅ = [].
Proof. apply Permutation_nil_r. by rewrite range_order_perm, map_to_list_empty. Qed.

(** X15. A body without attributes is no error for the sorters:
    sortLocalsBlock leaves two newline nodes, and sortResourceParams leaves
    a newline, the nested blocks with one newline between two of them, and
    a newline. *)
Theorem sorters_without_attributes `{GoRuntime} (block : Block) (k : nat) :
  Body_Attributes (Block_Body block) = ∅ →
  sortLocalsBlock block k = Some (Block_setChildren block [NL; NL], S k) ∧
  sortResourceParams block k
  = Some (Block_setChildren block
            ([NL] ++ sepBy NL (NodeBlock <$> Body_Blocks (Block_Body block)) ++ [NL]),
          S k).
Proof.
  intros Hnone. split.
  - rewrite sortLocalsBlock_run. unfold sortedBody, sortedNames.
    rewrite Hnone, map_to_list_empty. done.
  - rewrite sortResourceParams_run, Hnone, range_order_empty.
    unfold resourceBody. rewrite !filter_nil. simpl.
    rewrite bool_decide_eq_false_2 by (intros [_ [?|?]]; done).
    done.
Qed.

Lemma sorters_without_attributes_witness :
  sortLocalsBlock (H:=runtime_increasing) exampleBare 0
  = Some (Block_setChildren exampleBare [NL; NL], 1) ∧
  sortResourceParams (H:=runtime_increasing) exampleBare 0
  = Some (Block_setChildren exampleBare
            ([NL] ++ sepBy NL (NodeBlock <$> Body_Blocks (Block_Body exampleBare))
             ++ [NL]),
          1).
Proof.
  apply (sorters_without_attributes (H:=runtime_increasing) exampleBare 0).
  reflexivity.
Defined.
